(** * FaceDetectAge: ensemble refinement, coordinate rescaling, statistics
      and the analysis REST routes

    A shallow embedding of

    - the [useFaceApi] hook                ([detectFaces]),
    - [client/src/lib/face-api-utils.ts]   ([calculateAnalysisStats]),
    - the storage module                   ([IStorage], [MemStorage]),
    - the routes module                    ([registerRoutes]).

    Conventions.  A JavaScript [number] that carries a measurement (an age,
    a probability, a pixel coordinate) is an exact rational [Q]; equality of
    such values is [Qeq] ([==]).  Values produced by [Math.round] are
    integers ([Z]) injected back into [Q] where the code stores them in a
    [number] field.  The pretrained network is an input of the model: the
    list of detections of the full canvas and a function from crop
    rectangles to optional single-face results. *)

From Stdlib Require Import ZArith QArith Qround Qminmax Qabs Lqa Lia.
From Stdlib Require Import List String Ascii Bool DecimalString DecimalNat.
From Stdlib Require Import Sorted Permutation FinFun.
Import ListNotations.

Local Open Scope Q_scope.

(* ================================================================= *)
(** ** JavaScript primitives used by the sources *)

Module JS.

(** [Math.round]: the nearest integer, halves rounded towards +infinity. *)
Definition Math_round (v : Q) : Z := Qfloor (v + (1 # 2)).

Definition Math_max (a b : Q) : Q := Qmax a b.
Definition Math_min (a b : Q) : Q := Qmin a b.
Definition Math_abs (a : Q) : Q := Qabs a.

(** [a || b] on two unsigned integers: [a] unless it is falsy (zero). *)
Definition or_else (a b : N) : N := if N.eqb a 0 then b else a.

(** [v ?? d]. *)
Definition nullish {A} (v : option A) (d : A) : A :=
  match v with Some a => a | None => d end.

(** [arr.filter(Boolean)] over an array of objects-or-null. *)
Fixpoint filter_Boolean {A} (l : list (option A)) : list A :=
  match l with
  | [] => []
  | Some a :: l' => a :: filter_Boolean l'
  | None :: l' => filter_Boolean l'
  end.

(** [arr.reduce(f, init)]. *)
Definition reduce {A B} (f : B -> A -> B) (init : B) (l : list A) : B :=
  fold_left f l init.

(** [arr.map((e, index) => ...)]. *)
Fixpoint mapi_from {A B} (f : A -> nat -> B) (i : nat) (l : list A) : list B :=
  match l with
  | [] => []
  | a :: l' => f a i :: mapi_from f (S i) l'
  end.
Definition mapi {A B} (f : A -> nat -> B) (l : list A) : list B :=
  mapi_from f 0 l.

(** Template-literal rendering of a non-negative integer. *)
Definition string_of_nat (n : nat) : string :=
  NilEmpty.string_of_uint (Nat.to_uint n).

(** A number as [parseInt] produces it and [slice] consumes it: [NaN] or
    an integer.  (Past 2^53 a double loses precision and eventually
    becomes Infinity; [slice] clamps every such value to the array
    length, so the exact integer stands for all of them.) *)
Inductive Int := NaN | Num (z : Z).

(** Truthiness of a string: every string but the empty one. *)
Definition truthy (s : string) : bool :=
  match s with EmptyString => false | _ => true end.

(** White space and line terminators (ECMA-262, 12.2 and 12.3).  A string
    is the sequence of the bytes of its UTF-8 encoding: the ones below 128
    take one byte, U+00A0 takes two, the others three. *)
Definition is_space (c : ascii) : bool :=
  let n := nat_of_ascii c in
  ((9 <=? n) && (n <=? 13))%nat || (n =? 32)%nat.

(** U+00A0 (C2 A0). *)
Definition is_space2 (c1 c2 : ascii) : bool :=
  ((nat_of_ascii c1 =? 194) && (nat_of_ascii c2 =? 160))%nat.

(** U+1680 (E1 9A 80), U+2000 to U+200A (E2 80 80 to E2 80 8A), U+2028,
    U+2029, U+202F (E2 80 A8, A9, AF), U+205F (E2 81 9F), U+3000 (E3 80 80)
    and U+FEFF (EF BB BF). *)
Definition is_space3 (c1 c2 c3 : ascii) : bool :=
  let a := nat_of_ascii c1 in
  let b := nat_of_ascii c2 in
  let c := nat_of_ascii c3 in
  ((a =? 225) && (b =? 154) && (c =? 128)
   || (a =? 226) && (b =? 128)
      && (((128 <=? c) && (c <=? 138)) || (c =? 168) || (c =? 169) || (c =? 175))
   || (a =? 226) && (b =? 129) && (c =? 159)
   || (a =? 227) && (b =? 128) && (c =? 128)
   || (a =? 239) && (b =? 187) && (c =? 191))%nat.

Fixpoint trim_start (s : string) : string :=
  match s with
  | String c1 s1 =>
      if is_space c1 then trim_start s1
      else
        match s1 with
        | String c2 s2 =>
            if is_space2 c1 c2 then trim_start s2
            else
              match s2 with
              | String c3 s3 =>
                  if is_space3 c1 c2 c3 then trim_start s3 else s
              | EmptyString => s
              end
        | EmptyString => s
        end
  | EmptyString => s
  end.

(** Value of a character as a digit of the given radix (10 or 16). *)
Definition digit_of (radix : Z) (c : ascii) : option Z :=
  let n := Z.of_nat (nat_of_ascii c) in
  let d :=
    if (48 <=? n)%Z && (n <=? 57)%Z then Some (n - 48)%Z
    else if (97 <=? n)%Z && (n <=? 122)%Z then Some (n - 87)%Z
    else if (65 <=? n)%Z && (n <=? 90)%Z then Some (n - 55)%Z
    else None in
  match d with
  | Some v => if (v <? radix)%Z then Some v else None
  | None => None
  end.

(** The longest prefix of digits, accumulated; [None] when it is empty. *)
Fixpoint digits (radix : Z) (acc : option Z) (s : string) : option Z :=
  match s with
  | String c s' =>
      match digit_of radix c with
      | Some d =>
          digits radix
            (Some (match acc with Some a => a * radix + d | None => d end)%Z)
            s'
      | None => acc
      end
  | EmptyString => acc
  end.

(** [parseInt(s)] with no radix argument (ECMA-262, 19.2.5): leading
    white space, an optional sign, an optional [0x]/[0X] prefix, then the
    longest run of digits; [NaN] when there is none. *)
Definition parseInt (s : string) : Int :=
  let s1 := trim_start s in
  let '(sign, s2) :=
    match s1 with
    | String "-" r => ((-1)%Z, r)
    | String "+" r => (1%Z, r)
    | _ => (1%Z, s1)
    end in
  let '(radix, s3) :=
    match s2 with
    | String "0" (String "x" r) => (16%Z, r)
    | String "0" (String "X" r) => (16%Z, r)
    | _ => (10%Z, s2)
    end in
  match digits radix None s3 with
  | Some v => Num (sign * v)
  | None => NaN
  end.

(** [arr.slice(0, end)]: [ToIntegerOrInfinity] sends [NaN] to 0, a
    negative [end] counts from the back, and the result is clamped to
    the array. *)
Definition slice0 {A} (l : list A) (e : Int) : list A :=
  let len := Z.of_nat (List.length l) in
  let rel := match e with NaN => 0%Z | Num z => z end in
  let final := if (rel <? 0)%Z then Z.max (len + rel) 0 else Z.min rel len in
  firstn (Z.to_nat final) l.

(** [arr.sort(cmp)]: a stable sort; [cmp a b <= 0] keeps [a] before [b]. *)
Fixpoint sort_insert {A} (cmp : A -> A -> Z) (a : A) (l : list A) : list A :=
  match l with
  | [] => [a]
  | e :: l' => if (cmp a e <=? 0)%Z then a :: l else e :: sort_insert cmp a l'
  end.
Definition sort {A} (cmp : A -> A -> Z) (l : list A) : list A :=
  fold_right (sort_insert cmp) [] l.

End JS.

(* ================================================================= *)
(** ** The [useFaceApi] hook: detection, rescaling and ensemble refinement *)

Module FaceApi.
Import JS.

Record Box := mkBox { bx : Q; by_ : Q; bwidth : Q; bheight : Q }.
Record Point := mkPoint { px : Q; py : Q }.
Inductive Gender := male | female.

(** What the library reports for one face: [detection.box], [age],
    [gender], [genderProbability] (read through [?? 0] by the code) and
    [landmarks.positions]. *)
Record Detection := mkDetection {
  det_box : Box;
  det_age : Q;
  det_gender : Gender;
  det_genderProbability : option Q;
  det_positions : list Point
}.

(** [naturalWidth], [width], [naturalHeight], [height] of the
    [HTMLImageElement]: unsigned integers. *)
Record HTMLImageElement := mkImage {
  naturalWidth : N; width : N; naturalHeight : N; height : N
}.

(** [FaceDetectionResult] of [shared/schema.ts]. *)
Record FaceDetectionResult := mkFace {
  id : string;
  box : Box;
  age : Q;
  ageConfidence : Q;
  gender : Gender;
  genderConfidence : Q;
  landmarks : list Point
}.

(** An element of [initialResults]: the face with its unrounded age and
    its box in canvas coordinates ([rawBox]). *)
Record InitialResult := mkInitial {
  r_id : string;
  r_box : Box;
  r_rawBox : Box;
  r_age : Q;
  r_ageConfidence : Q;
  r_gender : Gender;
  r_genderConfidence : Q;
  r_landmarks : list Point
}.

(** A rounded crop rectangle [{x, y, w, h}]. *)
Record Crop := mkCrop { cx : Z; cy : Z; cw : Z; ch : Z }.

(** What the code keeps of a crop's single-face result. *)
Record Pred := mkPred { p_age : Q; p_gender : Gender; p_genderProbability : Q }.

Definition targetWidth : Q := 1024.

Definition naturalW (img : HTMLImageElement) : N :=
  or_else (naturalWidth img) (width img).
Definition naturalH (img : HTMLImageElement) : N :=
  or_else (naturalHeight img) (height img).

Definition QofN (n : N) : Q := inject_Z (Z.of_N n).

(** [Math.max(1, targetWidth / Math.max(1, naturalW))]. *)
Definition scale (img : HTMLImageElement) : Q :=
  Math_max 1 (targetWidth / Math_max 1 (QofN (naturalW img))).

Definition canvas_width (img : HTMLImageElement) : Z :=
  Math_round (QofN (naturalW img) * scale img).
Definition canvas_height (img : HTMLImageElement) : Z :=
  Math_round (QofN (naturalH img) * scale img).

Definition invScale (img : HTMLImageElement) : Q := 1 / scale img.

(** [Math.min(95, Math.max(70, 90 - Math.abs(age - 30) * 0.5))]. *)
Definition ageConfidenceCurve (a : Q) : Q :=
  Math_min 95 (Math_max 70 (90 - Math_abs (a - 30) * (1 # 2))).

Definition scaleBox (k : Q) (b : Box) : Box :=
  mkBox (bx b * k) (by_ b * k) (bwidth b * k) (bheight b * k).
Definition scalePoint (k : Q) (p : Point) : Point :=
  mkPoint (px p * k) (py p * k).

Definition face_id (index : nat) : string :=
  ("face-" ++ string_of_nat (index + 1))%string.

Definition initialResult (img : HTMLImageElement) (detection : Detection)
    (index : nat) : InitialResult :=
  let conf := ageConfidenceCurve (det_age detection) in
  let genderConf :=
    Math_round (nullish (det_genderProbability detection) 0 * 100) in
  {| r_id := face_id index;
     r_box := scaleBox (invScale img) (det_box detection);
     r_rawBox := det_box detection;
     r_age := det_age detection;
     r_ageConfidence := inject_Z (Math_round conf);
     r_gender := det_gender detection;
     r_genderConfidence := inject_Z genderConf;
     r_landmarks := map (scalePoint (invScale img)) (det_positions detection) |}.

Definition initialResults (img : HTMLImageElement) (detections : list Detection)
    : list InitialResult :=
  mapi (initialResult img) detections.

(** The record returned for a face when [useEnsemble] is off. *)
Definition finalize (r : InitialResult) : FaceDetectionResult :=
  {| id := r_id r;
     box := r_box r;
     age := inject_Z (Math_round (r_age r));
     ageConfidence := r_ageConfidence r;
     gender := r_gender r;
     genderConfidence := r_genderConfidence r;
     landmarks := r_landmarks r |}.

Definition paddings : list Q := [1 # 10; 1 # 4; 9 # 20].

(** The clamped rectangle before rounding: [(cx, cy, cw, ch)]. *)
Definition cropRect (W H : Z) (raw : Box) (pad : Q) : Q * Q * Q * Q :=
  let x0 := Math_max 0 (bx raw - bwidth raw * pad) in
  let y0 := Math_max 0 (by_ raw - bheight raw * pad) in
  let w0 := Math_min (inject_Z W - x0) (bwidth raw * (1 + pad * 2)) in
  let h0 := Math_min (inject_Z H - y0) (bheight raw * (1 + pad * 2)) in
  (x0, y0, w0, h0).

Definition crop (W H : Z) (raw : Box) (pad : Q) : Crop :=
  let '(x0, y0, w0, h0) := cropRect W H raw pad in
  mkCrop (Math_round x0) (Math_round y0) (Math_round w0) (Math_round h0).

Definition crops (W H : Z) (raw : Box) : list Crop :=
  map (crop W H raw) paddings.

(** The single-face result of a crop, as the library reports it. *)
Record SingleResult := mkSingle {
  s_age : Q; s_gender : Gender; s_genderProbability : option Q
}.

Definition pred_of (res : option SingleResult) : option Pred :=
  match res with
  | None => None
  | Some s =>
      Some (mkPred (s_age s) (s_gender s) (nullish (s_genderProbability s) 0))
  end.

Section Ensemble.
(** [faceapi.detectSingleFace(cropCanvas)...]: the crop canvas is the
    part of the detection canvas under the rectangle, so the result is
    a function of the rectangle. *)
Variable detectSingleFace : Crop -> option SingleResult.
Variable img : HTMLImageElement.

Definition preds (r : InitialResult) : list (option Pred) :=
  map (fun c => pred_of (detectSingleFace c))
      (crops (canvas_width img) (canvas_height img) (r_rawBox r)).

Definition valid (r : InitialResult) : list Pred :=
  filter_Boolean (preds r).

Definition length_Q {A} (l : list A) : Q := inject_Z (Z.of_nat (List.length l)).

(** One iteration of the loop over [initialResults]. *)
Definition refine (r : InitialResult) : FaceDetectionResult :=
  match valid r with
  | [] =>
      (* fallback to initial detection *)
      {| id := r_id r;
         box := r_box r;
         age := inject_Z (Math_round (r_age r));
         ageConfidence := r_ageConfidence r;
         gender := r_gender r;
         genderConfidence := r_genderConfidence r;
         landmarks := r_landmarks r |}
  | first :: _ =>
      let v := valid r in
      let avgAge := reduce (fun s p => s + p_age p) 0 v / length_Q v in
      let avgGenderProb :=
        reduce (fun s p => s + p_genderProbability p) 0 v / length_Q v in
      let avgGenderConfidence := Math_round (avgGenderProb * 100) in
      let conf := ageConfidenceCurve avgAge in
      {| id := r_id r;
         box := r_box r;
         age := inject_Z (Math_round avgAge);
         ageConfidence := inject_Z (Math_round conf);
         gender := p_gender first;
         genderConfidence := inject_Z avgGenderConfidence;
         landmarks := r_landmarks r |}
  end.

(** The body of [detectFaces] once the models are loaded, for a run in
    which the canvas context exists and the library calls return: what
    the library returned for the full canvas is [detections]. *)
Definition detectFaces (detections : list Detection) (useEnsemble : bool)
    : list FaceDetectionResult :=
  let initial := initialResults img detections in
  if negb useEnsemble then map finalize initial
  else map refine initial.
End Ensemble.

End FaceApi.

(* ================================================================= *)
(** ** [face-api-utils.ts]: summary statistics *)

Module Stats.
Import JS FaceApi.

Record AnalysisStats := mkStats {
  totalFaces : nat;
  avgConfidence : Z;
  processingTime : string;
  imageSize : string
}.

Definition string_of_N (n : N) : string := string_of_nat (N.to_nat n).

Section Stats.
(** [Number.prototype.toFixed] renders the binary expansion of a double
    and is taken as given. *)
Variable toFixed : Q -> nat -> string.

Definition calculateAnalysisStats (faces : list FaceDetectionResult)
    (elapsed : Q) (imageDimensions : N * N) : AnalysisStats :=
  let total := List.length faces in
  let avg :=
    if (0 <? total)%nat
    then Math_round
           (reduce (fun sum face =>
                      let combined :=
                        Math_round ((ageConfidence face + genderConfidence face) / 2) in
                      sum + inject_Z combined) 0 faces
            / inject_Z (Z.of_nat total))
    else 0%Z in
  {| totalFaces := total;
     avgConfidence := avg;
     processingTime := (toFixed (elapsed / 1000) 1 ++ "s")%string;
     imageSize := (string_of_N (fst imageDimensions) ++ "x"
                     ++ string_of_N (snd imageDimensions))%string |}.

(** The other copy of the file kept in the repository adds the halves
    without rounding them face by face. *)
Definition calculateAnalysisStats_unrounded (faces : list FaceDetectionResult)
    (elapsed : Q) (imageDimensions : N * N) : AnalysisStats :=
  let total := List.length faces in
  let avg :=
    if (0 <? total)%nat
    then Math_round
           (reduce (fun sum face =>
                      sum + (ageConfidence face + genderConfidence face) / 2) 0 faces
            / inject_Z (Z.of_nat total))
    else 0%Z in
  {| totalFaces := total;
     avgConfidence := avg;
     processingTime := (toFixed (elapsed / 1000) 1 ++ "s")%string;
     imageSize := (string_of_N (fst imageDimensions) ++ "x"
                     ++ string_of_N (snd imageDimensions))%string |}.
End Stats.

End Stats.

(* ================================================================= *)
(** ** The storage module and the routes *)

Module Server.
Import JS.

(** A JSON value: a request body, or the content of a [jsonb] column. *)
#[local] Unset Elimination Schemes.
Inductive Json :=
| JNull
| JBool (b : bool)
| JNumber (q : Q)
| JString (s : string)
| JArray (l : list Json)
| JObject (fields : list (string * Json)).
#[local] Set Elimination Schemes.

(** A thrown [Error]; the handlers read only its [message]. *)
Record Error := mkError { message : string }.

(** [InsertFaceAnalysis] and [FaceAnalysis] of [shared/schema.ts]. *)
Record InsertFaceAnalysis := mkInsert {
  ins_imageFileName : string;
  ins_imageDimensions : Json;
  ins_detectedFaces : Json;
  ins_processingTime : option string
}.

Record FaceAnalysis := mkAnalysis {
  id : string;
  imageFileName : string;
  imageDimensions : Json;
  detectedFaces : Json;
  analysisTimestamp : Z;
  processingTime : option string
}.

(** *** Asynchronous code that may throw

    An [async] function over a state [S]: it ends with a value or with a
    thrown error, and the state it reached either way. *)
Definition Async (S A : Type) : Type := S -> (Error + A) * S.

Definition ret {S A} (a : A) : Async S A := fun s => (inr a, s).
Definition throw {S A} (e : Error) : Async S A := fun s => (inl e, s).
Definition bind {S A B} (m : Async S A) (k : A -> Async S B) : Async S B :=
  fun s => match m s with
           | (inr a, s') => k a s'
           | (inl e, s') => (inl e, s')
           end.
Definition try_catch {S A} (m : Async S A) (h : Error -> Async S A) : Async S A :=
  fun s => match m s with
           | (inr a, s') => (inr a, s')
           | (inl e, s') => h e s'
           end.
(** A synchronous call that returns or throws. *)
Definition call {S A} (r : Error + A) : Async S A :=
  match r with inl e => throw e | inr a => ret a end.

Notation "x <- m ;; k" := (bind m (fun x => k))
  (at level 61, m at next level, right associativity).

(** *** [IStorage], the analysis part

    The module exports one implementation for the process: the
    database-backed class, which hands every call to the external driver,
    when a database is configured, and [MemStorage] otherwise.  The routes
    are written against the interface. *)
Class IStorage (S : Type) := {
  createFaceAnalysis : InsertFaceAnalysis -> Async S FaceAnalysis;
  getFaceAnalyses : option Int -> Async S (list FaceAnalysis);
  getFaceAnalysis : string -> Async S (option FaceAnalysis)
}.

(** *** [MemStorage] *)

(** A [Map<string, V>]: its entries in insertion order. *)
Definition Map (V : Type) := list (string * V).

Fixpoint Map_get {V} (k : string) (m : Map V) : option V :=
  match m with
  | [] => None
  | (k', v) :: m' => if String.eqb k' k then Some v else Map_get k m'
  end.

Fixpoint Map_set {V} (k : string) (v : V) (m : Map V) : Map V :=
  match m with
  | [] => [(k, v)]
  | (k', v') :: m' =>
      if String.eqb k' k then (k', v) :: m' else (k', v') :: Map_set k v m'
  end.

Definition Map_values {V} (m : Map V) : list V := map snd m.

Record User := mkUser { user_id : string; username : string; password : string }.

(** The two maps of the class, with what [randomUUID()] and [new Date()]
    answer at each call and how often each was called. *)
Record MemStorage := mkMem {
  users : Map User;
  analyses : Map FaceAnalysis;
  randomUUID : nat -> string;
  uuid_calls : nat;
  Date_now : nat -> Z;
  date_calls : nat
}.

Definition fresh_uuid : Async MemStorage string :=
  fun s => (inr (randomUUID s (uuid_calls s)),
            mkMem (users s) (analyses s) (randomUUID s) (S (uuid_calls s))
                  (Date_now s) (date_calls s)).

Definition new_Date : Async MemStorage Z :=
  fun s => (inr (Date_now s (date_calls s)),
            mkMem (users s) (analyses s) (randomUUID s) (uuid_calls s)
                  (Date_now s) (S (date_calls s))).

Definition analyses_set (k : string) (a : FaceAnalysis) : Async MemStorage unit :=
  fun s => (inr tt,
            mkMem (users s) (Map_set k a (analyses s)) (randomUUID s) (uuid_calls s)
                  (Date_now s) (date_calls s)).

Definition read {A} (f : MemStorage -> A) : Async MemStorage A :=
  fun s => (inr (f s), s).

(** [v || null] on an optional string. *)
Definition or_null (v : option string) : option string :=
  match v with
  | Some s => if truthy s then Some s else None
  | None => None
  end.

Definition Mem_createFaceAnalysis (analysis : InsertFaceAnalysis)
    : Async MemStorage FaceAnalysis :=
  id <- fresh_uuid ;;
  now <- new_Date ;;
  let faceAnalysis :=
    {| id := id;
       imageFileName := ins_imageFileName analysis;
       imageDimensions := ins_imageDimensions analysis;
       detectedFaces := ins_detectedFaces analysis;
       analysisTimestamp := now;
       processingTime := or_null (ins_processingTime analysis) |} in
  _ <- analyses_set id faceAnalysis ;;
  ret faceAnalysis.

(** [limit: number = 10]: the default applies when no argument is passed. *)
Definition Mem_getFaceAnalyses (limit : option Int)
    : Async MemStorage (list FaceAnalysis) :=
  all <- read (fun s => Map_values (analyses s)) ;;
  ret (slice0
         (sort (fun a b => (analysisTimestamp b - analysisTimestamp a)%Z) all)
         (nullish limit (Num 10))).

Definition Mem_getFaceAnalysis (id : string)
    : Async MemStorage (option FaceAnalysis) :=
  read (fun s => Map_get id (analyses s)).

#[export] Instance memStorage : IStorage MemStorage := {
  createFaceAnalysis := Mem_createFaceAnalysis;
  getFaceAnalyses := Mem_getFaceAnalyses;
  getFaceAnalysis := Mem_getFaceAnalysis
}.

(** *** [registerRoutes] *)

(** What a handler passes to [res.json], under the status it set. *)
Inductive ResBody :=
| BodyAnalysis (a : FaceAnalysis)
| BodyAnalyses (l : list FaceAnalysis)
| BodyError (error : string).

Record Response := mkResponse { status : nat; body : ResBody }.

Definition res_json (b : ResBody) : Response := mkResponse 200 b.
Definition res_status_json (code : nat) (b : ResBody) : Response :=
  mkResponse code b.

Section Routes.
Context {S : Type} `{storage : IStorage S}.
(** [insertFaceAnalysisSchema.parse]: the schema comes from
    [createInsertSchema]; it returns the parsed data or throws. *)
Variable parse : Json -> Error + InsertFaceAnalysis.

(** [app.post("/api/analyses", ...)]. *)
Definition post_api_analyses (req_body : Json) : Async S Response :=
  try_catch
    (data <- call (parse req_body) ;;
     analysis <- createFaceAnalysis data ;;
     ret (res_json (BodyAnalysis analysis)))
    (fun error => ret (res_status_json 400 (BodyError (message error)))).

(** [app.get("/api/analyses", ...)]; the argument is [req.query.limit],
    read as the string the handler casts it to, absent when the query has
    no [limit]. *)
Definition get_api_analyses (query_limit : option string) : Async S Response :=
  try_catch
    (let limit :=
       match query_limit with
       | Some l => if truthy l then parseInt l else Num 10
       | None => Num 10
       end in
     found <- getFaceAnalyses (Some limit) ;;
     ret (res_json (BodyAnalyses found)))
    (fun error => ret (res_status_json 500 (BodyError (message error)))).

(** [app.get("/api/analyses/:id", ...)]; the argument is [req.params.id]. *)
Definition get_api_analyses_id (id : string) : Async S Response :=
  try_catch
    (analysis <- getFaceAnalysis id ;;
     match analysis with
     | None => ret (res_status_json 404 (BodyError "Analysis not found"))
     | Some a => ret (res_json (BodyAnalysis a))
     end)
    (fun error => ret (res_status_json 500 (BodyError (message error)))).
End Routes.

End Server.

(* ================================================================= *)
(** ** The specification's formulas, written from its words *)

Module Spec.

(** Arithmetic mean of a list of numbers. *)
Definition sum (l : list Q) : Q := fold_right Qplus 0 l.
Definition mean (l : list Q) : Q := sum l / inject_Z (Z.of_nat (List.length l)).

(** [clamp(v, lo, hi)]. *)
Definition clamp (v lo hi : Q) : Q :=
  if Qlt_le_dec v lo then lo else if Qlt_le_dec hi v then hi else v.

(** [confidence = clamp(90 - 0.5 * |age - 30|, 70, 95)]. *)
Definition confidence (a : Q) : Q :=
  clamp (90 - (1 # 2) * Qabs (a - 30)) 70 95.

(** [max(1, target_width / original_width)]; there is no quotient for a
    width of zero (JavaScript evaluates it to Infinity). *)
Definition upscale (original_width : N) : option Q :=
  if N.eqb original_width 0 then None
  else Some (Qmax 1 (1024 / inject_Z (Z.of_N original_width))).

(** The upscale factor of an image is the one of the formula. *)
Definition upscale_agrees (img : FaceApi.HTMLImageElement) : Prop :=
  exists q, upscale (FaceApi.naturalW img) = Some q /\ FaceApi.scale img == q.

(** [round((ageConfidence + genderConfidence) / 2)] of one face. *)
Definition combined (face : FaceApi.FaceDetectionResult) : Z :=
  JS.Math_round ((FaceApi.ageConfidence face + FaceApi.genderConfidence face) / 2).

(** A box lies within a [W] x [H] canvas. *)
Definition within (W H : Z) (b : FaceApi.Box) : Prop :=
  0 <= FaceApi.bx b /\ 0 <= FaceApi.by_ b /\
  0 <= FaceApi.bwidth b /\ 0 <= FaceApi.bheight b /\
  FaceApi.bx b + FaceApi.bwidth b <= inject_Z W /\
  FaceApi.by_ b + FaceApi.bheight b <= inject_Z H.

(** A rounded crop lies within a [W] x [H] canvas. *)
Definition crop_within (W H : Z) (c : FaceApi.Crop) : Prop :=
  (0 <= FaceApi.cx c /\ 0 <= FaceApi.cy c /\
   FaceApi.cx c + FaceApi.cw c <= W /\ FaceApi.cy c + FaceApi.ch c <= H)%Z.

(** A [limit] that [parseInt] sends to [NaN] makes the in-memory backend
    answer the empty list. *)
Definition nan_limit_gives_empty (limit : string) (m : Server.MemStorage) : Prop :=
  JS.parseInt limit = JS.NaN ->
  fst (Server.get_api_analyses (storage := Server.memStorage) (Some limit) m)
  = inr (Server.res_json (Server.BodyAnalyses [])).

End Spec.

(* ================================================================= *)
(** ** Sample inputs *)

Module Samples.
Import JS FaceApi Server.

(** A 1024 x 768 photograph: the canvas has the same size. *)
Definition photo : HTMLImageElement := mkImage 1024 0 768 0.
(** A 512 x 300 image: upscaled by 2. *)
Definition small : HTMLImageElement := mkImage 512 0 300 0.
(** An image that reports no size. *)
Definition unsized : HTMLImageElement := mkImage 0 0 0 0.

Definition face1 : Detection :=
  mkDetection (mkBox 200 100 100 100) 33 male (Some (95 # 100))
              [mkPoint 210 110; mkPoint 250 160].
Definition newborn : Detection :=
  mkDetection (mkBox 200 100 100 100) 0 female (Some (60 # 100)) [].
(** A large face whose left edge, padded by a quarter, lands on x = 0.5. *)
Definition wide : Detection :=
  mkDetection (mkBox (343 # 2) 100 684 400) 41 male (Some (9 # 10)) [].

(** A stub network: the three crops of [face1] give ages 20, 30, 40 with
    gender probabilities 0.8, 0.9, 0.7. *)
Definition stub (c : Crop) : option SingleResult :=
  if (cx c =? 190)%Z then Some (mkSingle 20 female (Some (8 # 10)))
  else if (cx c =? 175)%Z then Some (mkSingle 30 male (Some (9 # 10)))
  else if (cx c =? 155)%Z then Some (mkSingle 40 male (Some (7 # 10)))
  else None.
Definition blind (c : Crop) : option SingleResult := None.

Definition faceA : FaceDetectionResult :=
  mkFace "face-1" (mkBox 0 0 10 10) 30 71 male 70 [].
Definition faceB : FaceDetectionResult :=
  mkFace "face-2" (mkBox 20 0 10 10) 30 70 male 70 [].

(** A toy schema: an object with a string [imageFileName] passes. *)
Definition toy_parse (b : Json) : Error + InsertFaceAnalysis :=
  match b with
  | JObject (("imageFileName"%string, JString n) :: _) =>
      inr (mkInsert n (JObject []) (JArray []) None)
  | _ => inl (mkError "Required")
  end.

Definition empty_store : MemStorage :=
  mkMem [] [] (fun n => ("uuid-" ++ string_of_nat n)%string) 0
        (fun n => Z.of_nat n) 0.
Definition stored : FaceAnalysis :=
  mkAnalysis "uuid-0" "a.png" (JObject []) (JArray []) 0 None.
Definition one_store : MemStorage :=
  mkMem [] [("uuid-0"%string, stored)]
        (fun n => ("uuid-" ++ string_of_nat n)%string) 1
        (fun n => Z.of_nat n) 1.
End Samples.

(* ================================================================= *)
(** ** [face-api-utils.ts]: confidence bands and the overlay *)

Module Utils.
Import JS FaceApi.

Definition getConfidenceLevel (confidence : Q) : string :=
  if Qle_bool 90 confidence then "High Confidence"
  else if Qle_bool 75 confidence then "Good Confidence"
  else if Qle_bool 60 confidence then "Medium Confidence"
  else "Low Confidence".

Definition getConfidenceLevelColor (confidence : Q) : string :=
  if Qle_bool 90 confidence then "text-accent"
  else if Qle_bool 75 confidence then "text-secondary-foreground"
  else if Qle_bool 60 confidence then "text-muted-foreground"
  else "text-destructive".

(** The image element as the overlay reads it: its layout size
    ([clientWidth], [clientHeight]) besides the sizes of [HTMLImageElement]. *)
Record DisplayedImage := mkDisplayed {
  element : HTMLImageElement;
  clientWidth : N;
  clientHeight : N
}.

(** A call on the 2D context, with the styles set when it is made. *)
Inductive DrawOp :=
| ClearRect (x y w h : Q)
| DrawImage (dx dy dw dh : Q)
| StrokeRect (strokeStyle : string) (lineWidth : Q) (x y w h : Q)
| FillRect (fillStyle : string) (x y w h : Q)
| FillText (fillStyle font text : string) (x y : Q).

(** The overlay canvas: its pixel size and the calls made since the
    bitmap was last reset (assigning [canvas.width] resets it). *)
Record Canvas := mkCanvas { c_width : Z; c_height : Z; c_ops : list DrawOp }.

Definition displayWidth (image : DisplayedImage) : N :=
  or_else (or_else (clientWidth image) (width (element image)))
          (naturalWidth (element image)).
Definition displayHeight (image : DisplayedImage) : N :=
  or_else (or_else (clientHeight image) (height (element image)))
          (naturalHeight (element image)).

Definition gender_name (g : Gender) : string :=
  match g with male => "male" | female => "female" end.

(** [(sx, sy, sw, sh)]: the box of a face in display coordinates. *)
Definition displayBox (scaleX scaleY : Q) (face : FaceDetectionResult)
    : Q * Q * Q * Q :=
  (bx (box face) * scaleX, by_ (box face) * scaleY,
   bwidth (box face) * scaleX, bheight (box face) * scaleY).

Section Overlay.
(** Rendering of a number in a template literal, and
    [ctx.measureText(label).width] under the font in use: both are taken
    as given. *)
Variable show : Q -> string.
Variable measureText : string -> string -> Q.

Definition face_ops (scaleX scaleY : Q) (face : FaceDetectionResult)
    : list DrawOp :=
  let '(sx, sy, sw, sh) := displayBox scaleX scaleY face in
  let label :=
    (gender_name (gender face) ++ ", " ++ show (age face) ++ " (Age "
       ++ show (ageConfidence face) ++ "%)")%string in
  let font := "12px Inter, sans-serif"%string in
  let textWidth := measureText font label in
  let labelX := sx in
  let labelY := sy - 24 in
  [ StrokeRect "#10b981" 3 sx sy sw sh;
    FillRect "rgba(16, 185, 129, 0.1)" sx sy sw sh;
    FillRect "#10b981" labelX labelY (textWidth + 16) 20;
    FillText "white" font label (labelX + 8) (labelY + 16) ].

(** [drawFaceOverlays(canvas, image, faces)]; [hasContext] tells whether
    [canvas.getContext('2d')] answered.  The two scale factors are read
    for an image whose natural size is not zero. *)
Definition drawFaceOverlays (hasContext : bool) (canvas : Canvas)
    (image : DisplayedImage) (faces : list FaceDetectionResult) : Canvas :=
  if negb hasContext then canvas
  else
    let w := Math_round (QofN (displayWidth image)) in
    let h := Math_round (QofN (displayHeight image)) in
    let scaleX := inject_Z w / QofN (naturalWidth (element image)) in
    let scaleY := inject_Z h / QofN (naturalHeight (element image)) in
    mkCanvas w h
      (ClearRect 0 0 (inject_Z w) (inject_Z h)
       :: DrawImage 0 0 (inject_Z w) (inject_Z h)
       :: flat_map (face_ops scaleX scaleY) faces).
End Overlay.

End Utils.

(* ================================================================= *)
(** ** The [FaceAnalysis] component: result cards, history, export *)

Module Component.
Import JS FaceApi Utils.

(** [Math.round((face.ageConfidence + face.genderConfidence) / 2)], shown
    on the card of a face and classified by [getConfidenceLevel]. *)
Definition combinedConfidence (face : FaceDetectionResult) : Z :=
  Math_round ((ageConfidence face + genderConfidence face) / 2).

(** One tick of the simulated progress: [Math.min(prev + 10, 90)]. *)
Definition progressTick (prev : Q) : Q := Math_min (prev + 10) 90.

(** The update of the history kept in local storage: [unshift] the new
    analysis, then [pop] once when more than 10 are held. *)
Definition updateHistory {A} (localHistory : list A) (newAnalysis : A) : list A :=
  let unshifted := newAnalysis :: localHistory in
  if (10 <? List.length unshifted)%nat then removelast unshifted else unshifted.

Definition newline : string := String (ascii_of_nat 10) EmptyString.

Definition csvHeader : string :=
  "Face ID,Age,Age Confidence,Gender,Gender Confidence,X,Y,Width,Height".

Section CsvExport.
(** Rendering of a number in a template literal. *)
Variable show : Q -> string.

Definition csvRow (face : FaceDetectionResult) : string :=
  (id face ++ "," ++ show (age face) ++ "," ++ show (ageConfidence face) ++ ","
     ++ gender_name (gender face) ++ "," ++ show (genderConfidence face) ++ ","
     ++ show (bx (box face)) ++ "," ++ show (by_ (box face)) ++ ","
     ++ show (bwidth (box face)) ++ "," ++ show (bheight (box face)))%string.

(** The text [handleExportData] puts in the downloaded file; nothing is
    exported for an empty list of faces. *)
Definition handleExportData (detectedFaces : list FaceDetectionResult)
    : option string :=
  if (0 <? List.length detectedFaces)%nat then
    let csvData := String.concat newline (map csvRow detectedFaces) in
    Some (csvHeader ++ newline ++ csvData)%string
  else None.
End CsvExport.

End Component.

(* ================================================================= *)
(** ** [MemStorage]: the user operations *)

Module Users.
Import JS Server.

(** [InsertUser] of [shared/schema.ts]. *)
Record InsertUser := mkInsertUser { ins_username : string; ins_password : string }.

Definition users_set (k : string) (u : User) : Async MemStorage unit :=
  fun s => (inr tt,
            mkMem (Map_set k u (users s)) (analyses s) (randomUUID s) (uuid_calls s)
                  (Date_now s) (date_calls s)).

Definition Mem_getUser (id : string) : Async MemStorage (option User) :=
  read (fun s => Map_get id (users s)).

Definition Mem_getUserByUsername (name : string) : Async MemStorage (option User) :=
  read (fun s => find (fun user => String.eqb (username user) name)
                      (Map_values (users s))).

Definition Mem_createUser (insertUser : InsertUser) : Async MemStorage User :=
  id <- fresh_uuid ;;
  let user := mkUser id (ins_username insertUser) (ins_password insertUser) in
  _ <- users_set id user ;;
  ret user.

End Users.

(* ================================================================= *)
(** ** Observations on drawings and texts *)

Module Measures.
Import Utils.

(** The rectangles stroked on a canvas, in the order of the calls. *)
Definition stroke_boxes (ops : list DrawOp) : list (Q * Q * Q * Q) :=
  flat_map (fun op => match op with
                      | StrokeRect _ _ x y w h => [(x, y, w, h)]
                      | _ => []
                      end) ops.

(** [a] may stand before [b] in a listing that shows later records first. *)
Definition newer_first (a b : Server.FaceAnalysis) : Prop :=
  (Server.analysisTimestamp b <= Server.analysisTimestamp a)%Z.

(** The comparator [getFaceAnalyses] sorts with. *)
Definition by_time_desc (a b : Server.FaceAnalysis) : Z :=
  (Server.analysisTimestamp b - Server.analysisTimestamp a)%Z.

(** The number of line breaks in a text. *)
Fixpoint count_newlines (s : string) : nat :=
  match s with
  | EmptyString => 0
  | String c s' =>
      ((if Ascii.eqb c (ascii_of_nat 10) then 1 else 0) + count_newlines s')%nat
  end.

End Measures.

(* ================================================================= *)
(** ** Further sample inputs *)

Module MoreSamples.
Import JS FaceApi Utils Server Users.

(** [photo] not laid out yet: the overlay falls back to its natural size. *)
Definition shown_natural : DisplayedImage := mkDisplayed Samples.photo 0 0.

Definition face_in_photo : FaceDetectionResult :=
  mkFace "face-1" (mkBox 200 100 100 100) 33 89 male 95 [].

Definition show_zero (q : Q) : string := "0".
Definition measure_zero (font text : string) : Q := 0.

Definition alice : InsertUser := mkInsertUser "alice" "secret".

Definition insert_a : InsertFaceAnalysis :=
  mkInsert "a.png" (JObject []) (JArray []) None.
Definition insert_b : InsertFaceAnalysis :=
  mkInsert "b.png" (JObject []) (JArray []) (Some EmptyString).
End MoreSamples.

(* ================================================================= *)
(** ** Facts about the JavaScript primitives *)

Module JSFacts.
Import JS.

Lemma Math_round_comp (u v : Q) : u == v -> Math_round u = Math_round v.
Proof.
  intros E. unfold Math_round. apply Qfloor_comp. now rewrite E.
Qed.

Lemma Math_round_between (lo hi : Z) (v : Q) :
  inject_Z lo <= v -> v <= inject_Z hi -> (lo <= Math_round v <= hi)%Z.
Proof.
  intros L U. unfold Math_round. split.
  - rewrite <- (Qfloor_Z lo). apply Qfloor_resp_le. lra.
  - assert (H : (Qfloor (v + (1 # 2)) < hi + 1)%Z); [| lia].
    rewrite Zlt_Qlt, inject_Z_plus.
    pose proof (Qfloor_le (v + (1 # 2))) as F.
    change (inject_Z 1) with 1. lra.
Qed.

Lemma Math_round_Z (z : Z) : Math_round (inject_Z z) = z.
Proof.
  pose proof (Math_round_between z z (inject_Z z)) as H.
  assert (inject_Z z <= inject_Z z) as R by lra.
  specialize (H R R). lia.
Qed.

(** Rounding moves a value by at most one half. *)
Lemma Math_round_near (v : Q) :
  v - (1 # 2) < inject_Z (Math_round v) + 0 /\ inject_Z (Math_round v) <= v + (1 # 2).
Proof.
  unfold Math_round.
  pose proof (Qfloor_le (v + (1 # 2))) as L.
  pose proof (Qlt_floor (v + (1 # 2))) as U.
  rewrite inject_Z_plus in U. change (inject_Z 1) with 1 in U.
  split; lra.
Qed.

Lemma reduce_sum {A} (f : A -> Q) (l : list A) (a : Q) :
  reduce (fun s p => s + f p) a l == a + Spec.sum (map f l).
Proof.
  unfold reduce. revert a.
  induction l as [| p l IH]; intros a; simpl.
  - lra.
  - rewrite IH. lra.
Qed.

Lemma nth_error_mapi_from {A B} (f : A -> nat -> B) (l : list A) :
  forall k i,
    nth_error (mapi_from f k l) i
    = option_map (fun a => f a (k + i)%nat) (nth_error l i).
Proof.
  induction l as [| a l IH]; intros k [| i]; simpl; try reflexivity.
  - now rewrite Nat.add_0_r.
  - rewrite IH. now rewrite Nat.add_succ_r.
Qed.

Lemma nth_error_mapi {A B} (f : A -> nat -> B) (l : list A) (i : nat) :
  nth_error (mapi f l) i = option_map (fun a => f a i) (nth_error l i).
Proof. unfold mapi. now rewrite nth_error_mapi_from. Qed.

(** A projection of [mapi] that ignores the index is a plain [map]. *)
Lemma map_mapi_from {A B C} (g : B -> C) (f : A -> nat -> B) (h : A -> C) :
  (forall a i, g (f a i) = h a) ->
  forall l k, map g (mapi_from f k l) = map h l.
Proof.
  intros E. induction l as [| a l IH]; intros k; simpl; [reflexivity |].
  now rewrite E, IH.
Qed.

Lemma mapi_from_length {A B} (f : A -> nat -> B) (l : list A) :
  forall k, List.length (mapi_from f k l) = List.length l.
Proof. induction l; intros k; simpl; [reflexivity | now rewrite IHl]. Qed.

Lemma In_mapi_from {A B} (f : A -> nat -> B) (b : B) (l : list A) :
  forall k, In b (mapi_from f k l) -> exists a i, In a l /\ b = f a i.
Proof.
  induction l as [| a l IH]; intros k; simpl; [tauto |].
  intros [E | H].
  - exists a, k. auto.
  - destruct (IH _ H) as (a' & i & Ha & Hb). exists a', i. auto.
Qed.

Lemma filter_Boolean_all_None {A} (l : list (option A)) :
  (forall o, In o l -> o = None) -> filter_Boolean l = [].
Proof.
  induction l as [| [a |] l IH]; simpl; intros H; [reflexivity | |].
  - discriminate (H (Some a)). now left.
  - apply IH. intros o Ho. apply H. now right.
Qed.

Lemma slice0_NaN {A} (l : list A) : slice0 l NaN = [].
Proof.
  unfold slice0. simpl. rewrite Z.min_l by lia. reflexivity.
Qed.

End JSFacts.

(* ================================================================= *)
(** ** [detectFaces]: the age-confidence curve *)

Module CurveFacts.
Import JS FaceApi JSFacts.

Lemma curve_bounds (a : Q) :
  70 <= ageConfidenceCurve a /\ ageConfidenceCurve a <= 95.
Proof.
  unfold ageConfidenceCurve, Math_min, Math_max.
  pose proof (Qabs_nonneg (a - 30)) as P. unfold Math_abs.
  set (v := 90 - Qabs (a - 30) * (1 # 2)).
  assert (V : v <= 90) by (unfold v; lra).
  destruct (Q.max_spec 70 v) as [[L E] | [L E]];
    destruct (Q.min_spec 95 (Qmax 70 v)) as [[L' F] | [L' F]];
    rewrite F; rewrite ?E in *; split; lra.
Qed.

Lemma curve_is_clamp (a : Q) : ageConfidenceCurve a == Spec.confidence a.
Proof.
  unfold ageConfidenceCurve, Spec.confidence, Spec.clamp, Math_min, Math_max, Math_abs.
  pose proof (Qabs_nonneg (a - 30)) as P.
  assert (E : 90 - Qabs (a - 30) * (1 # 2) == 90 - (1 # 2) * Qabs (a - 30)) by lra.
  set (v := 90 - Qabs (a - 30) * (1 # 2)) in *.
  set (w := 90 - (1 # 2) * Qabs (a - 30)) in *.
  destruct (Q.max_spec 70 v) as [[Lv Ev] | [Lv Ev]];
    destruct (Q.min_spec 95 (Qmax 70 v)) as [[Lm Em] | [Lm Em]];
    rewrite Em; rewrite ?Ev in *;
    destruct (Qlt_le_dec w 70); try destruct (Qlt_le_dec 95 w); lra.
Qed.

Lemma rounded_curve_bounds (a : Q) :
  (70 <= Math_round (ageConfidenceCurve a) <= 95)%Z.
Proof.
  destruct (curve_bounds a). now apply Math_round_between.
Qed.

End CurveFacts.

(* ================================================================= *)
(** ** [detectFaces]: the ensemble loop *)

Module EnsembleFacts.
Import JS FaceApi JSFacts CurveFacts.

Section Loop.
Variable detectSingleFace : Crop -> option SingleResult.
Variable img : HTMLImageElement.

Lemma nth_initialResults (detections : list Detection) (i : nat) (d : Detection) :
  nth_error detections i = Some d ->
  nth_error (initialResults img detections) i = Some (initialResult img d i).
Proof.
  intros H. unfold initialResults. now rewrite nth_error_mapi, H.
Qed.

Lemma nth_detectFaces_ensemble (detections : list Detection) (i : nat) (d : Detection) :
  nth_error detections i = Some d ->
  nth_error (detectFaces detectSingleFace img detections true) i
  = Some (refine detectSingleFace img (initialResult img d i)).
Proof.
  intros H. unfold detectFaces. simpl.
  now rewrite nth_error_map, (nth_initialResults _ _ _ H).
Qed.

Lemma nth_detectFaces_plain (detections : list Detection) (i : nat) (d : Detection) :
  nth_error detections i = Some d ->
  nth_error (detectFaces detectSingleFace img detections false) i
  = Some (finalize (initialResult img d i)).
Proof.
  intros H. unfold detectFaces. simpl.
  now rewrite nth_error_map, (nth_initialResults _ _ _ H).
Qed.

(** The averages of the loop are the arithmetic means. *)
Lemma avg_is_mean (f : Pred -> Q) (v : list Pred) :
  reduce (fun s p => s + f p) 0 v / length_Q v == Spec.mean (map f v).
Proof.
  unfold Spec.mean, length_Q. rewrite reduce_sum, length_map.
  now rewrite Qplus_0_l.
Qed.

Lemma refine_valid (r : InitialResult) (first : Pred) (rest : list Pred) :
  valid detectSingleFace img r = first :: rest ->
  refine detectSingleFace img r
  = {| id := r_id r;
       box := r_box r;
       age := inject_Z (Math_round (Spec.mean (map p_age (first :: rest))));
       ageConfidence :=
         inject_Z (Math_round
                     (ageConfidenceCurve (Spec.mean (map p_age (first :: rest)))));
       gender := p_gender first;
       genderConfidence :=
         inject_Z (Math_round
                     (Spec.mean (map p_genderProbability (first :: rest)) * 100));
       landmarks := r_landmarks r |}.
Proof.
  intros E. unfold refine. rewrite E.
  set (v := first :: rest).
  pose proof (avg_is_mean p_age v) as A.
  pose proof (avg_is_mean p_genderProbability v) as G.
  f_equal; f_equal; apply Math_round_comp.
  - exact A.
  - unfold ageConfidenceCurve, Math_min, Math_max, Math_abs. now rewrite A.
  - now rewrite G.
Qed.

Lemma refine_no_valid (r : InitialResult) :
  valid detectSingleFace img r = [] ->
  refine detectSingleFace img r = finalize r.
Proof. intros E. unfold refine. now rewrite E. Qed.

(** Whatever the crops say, an iteration keeps [id], [box], [landmarks]. *)
Lemma refine_frame (r : InitialResult) :
  id (refine detectSingleFace img r) = r_id r /\
  box (refine detectSingleFace img r) = r_box r /\
  landmarks (refine detectSingleFace img r) = r_landmarks r.
Proof.
  unfold refine. destruct (valid detectSingleFace img r); simpl; auto.
Qed.

Lemma refine_ageConfidence (r : InitialResult) :
  (exists a, r_ageConfidence r = inject_Z (Math_round (ageConfidenceCurve a))) ->
  exists a, ageConfidence (refine detectSingleFace img r)
            = inject_Z (Math_round (ageConfidenceCurve a)).
Proof.
  intros [a Ha]. unfold refine.
  destruct (valid detectSingleFace img r) as [| p l]; simpl; eauto.
Qed.
End Loop.

Lemma Forall2_mapi_from {A B C} (R : A -> C -> Prop) (f : A -> nat -> B) (g : B -> C) :
  (forall a i, R a (g (f a i))) ->
  forall l k, Forall2 R l (map g (mapi_from f k l)).
Proof.
  intros H. induction l as [| a l IH]; intros k; simpl; constructor; auto.
Qed.

Lemma detectFaces_cases detectSingleFace img detections useEnsemble :
  detectFaces detectSingleFace img detections useEnsemble
  = map (if useEnsemble then refine detectSingleFace img else finalize)
        (initialResults img detections).
Proof. unfold detectFaces. now destruct useEnsemble. Qed.

(** Every returned face carries the canvas coordinates of its detection
    multiplied by [1 / scale]. *)
Lemma detectFaces_coordinates detectSingleFace img detections useEnsemble :
  Forall2 (fun d f =>
             box f = scaleBox (1 / scale img) (det_box d) /\
             landmarks f = map (scalePoint (1 / scale img)) (det_positions d))
          detections
          (detectFaces detectSingleFace img detections useEnsemble).
Proof.
  rewrite detectFaces_cases. unfold initialResults, mapi.
  apply Forall2_mapi_from. intros d k.
  destruct useEnsemble.
  - destruct (refine_frame detectSingleFace img (initialResult img d k))
      as (_ & -> & ->). split; reflexivity.
  - split; reflexivity.
Qed.

Lemma scale_ge_1 (img : HTMLImageElement) : 1 <= scale img.
Proof. unfold scale, Math_max. apply Q.le_max_l. Qed.

Lemma QofN_ge_1 (n : N) : n <> 0%N -> 1 <= QofN n.
Proof.
  intros H. unfold QofN. change 1 with (inject_Z 1).
  rewrite <- Zle_Qle. lia.
Qed.

(** The clamped rectangle lies within the canvas before it is rounded. *)
Lemma cropRect_within (W H : Z) (raw : Box) (pad : Q) :
  let '(x0, y0, w0, h0) := cropRect W H raw pad in
  0 <= x0 /\ 0 <= y0 /\ x0 + w0 <= inject_Z W /\ y0 + h0 <= inject_Z H.
Proof.
  unfold cropRect, Math_max, Math_min.
  set (x0 := Qmax 0 (bx raw - bwidth raw * pad)).
  set (y0 := Qmax 0 (by_ raw - bheight raw * pad)).
  pose proof (Q.le_max_l 0 (bx raw - bwidth raw * pad)) as Hx.
  pose proof (Q.le_max_l 0 (by_ raw - bheight raw * pad)) as Hy.
  pose proof (Q.le_min_l (inject_Z W - x0) (bwidth raw * (1 + pad * 2))) as Hw.
  pose proof (Q.le_min_l (inject_Z H - y0) (bheight raw * (1 + pad * 2))) as Hh.
  fold x0 in Hx. fold y0 in Hy.
  repeat split; lra.
Qed.

(** After rounding, the origin is still non-negative and the far edges
    pass the canvas by at most one pixel. *)
Lemma crop_rounded_bounds (W H : Z) (raw : Box) (pad : Q) :
  let c := crop W H raw pad in
  (0 <= cx c /\ 0 <= cy c /\ cx c + cw c <= W + 1 /\ cy c + ch c <= H + 1)%Z.
Proof.
  pose proof (cropRect_within W H raw pad) as R.
  unfold crop. destruct (cropRect W H raw pad) as [[[x0 y0] w0] h0].
  destruct R as (Hx & Hy & Hw & Hh). simpl.
  pose proof (Math_round_near x0) as [_ Ux].
  pose proof (Math_round_near y0) as [_ Uy].
  pose proof (Math_round_near w0) as [_ Uw].
  pose proof (Math_round_near h0) as [_ Uh].
  repeat split.
  - rewrite <- (Math_round_Z 0). unfold Math_round. apply Qfloor_resp_le.
    change (inject_Z 0) with 0. lra.
  - rewrite <- (Math_round_Z 0). unfold Math_round. apply Qfloor_resp_le.
    change (inject_Z 0) with 0. lra.
  - rewrite Zle_Qle, !inject_Z_plus. change (inject_Z 1) with 1. lra.
  - rewrite Zle_Qle, !inject_Z_plus. change (inject_Z 1) with 1. lra.
Qed.

End EnsembleFacts.

(* ================================================================= *)
(** ** Properties of [detectFaces] *)

Module DetectFaces.
Import JS FaceApi JSFacts CurveFacts EnsembleFacts Samples.



(** C2.  When none of the three crops yields a detection, the refined
    face is the initial detection as it stands: its id, box, landmarks,
    age confidence, gender and gender confidence, with the age rounded to
    the integer within one half of it (halves upwards); it is the face
    returned without the ensemble. *)
Theorem ensemble_fallback
    (detectSingleFace : Crop -> option SingleResult) (img : HTMLImageElement)
    (detections : list Detection) (i : nat) (d : Detection) :
  nth_error detections i = Some d ->
  (forall c, In c (crops (canvas_width img) (canvas_height img) (det_box d)) ->
             detectSingleFace c = None) ->
  exists r,
    nth_error (initialResults img detections) i = Some r /\
    nth_error (detectFaces detectSingleFace img detections true) i
    = Some {| id := r_id r;
              box := r_box r;
              age := inject_Z (Math_round (r_age r));
              ageConfidence := r_ageConfidence r;
              gender := r_gender r;
              genderConfidence := r_genderConfidence r;
              landmarks := r_landmarks r |} /\
    nth_error (detectFaces detectSingleFace img detections true) i
    = nth_error (detectFaces detectSingleFace img detections false) i /\
    r_age r = det_age d /\
    det_age d - (1 # 2) < inject_Z (Math_round (r_age r)) /\
    inject_Z (Math_round (r_age r)) <= det_age d + (1 # 2).
Proof.
  intros Hd Hnone.
  exists (initialResult img d i).
  assert (V : valid detectSingleFace img (initialResult img d i) = []).
  { unfold valid, preds. apply filter_Boolean_all_None.
    intros o Ho. apply in_map_iff in Ho. destruct Ho as (c & <- & Hc).
    simpl in Hc. now rewrite (Hnone c Hc). }
  split; [now apply nth_initialResults |].
  rewrite (nth_detectFaces_ensemble _ _ _ _ _ Hd),
          (nth_detectFaces_plain _ _ _ _ _ Hd),
          (refine_no_valid _ _ _ V).
  split; [reflexivity |]. split; [reflexivity |]. split; [reflexivity |].
  cbn [r_age initialResult].
  pose proof (Math_round_near (det_age d)) as [L U]. split; lra.
Qed.

Lemma ensemble_fallback_witness :
  exists r,
    nth_error (initialResults photo [face1]) 0 = Some r /\
    nth_error (detectFaces blind photo [face1] true) 0
    = Some {| id := r_id r;
              box := r_box r;
              age := inject_Z (Math_round (r_age r));
              ageConfidence := r_ageConfidence r;
              gender := r_gender r;
              genderConfidence := r_genderConfidence r;
              landmarks := r_landmarks r |} /\
    nth_error (detectFaces blind photo [face1] true) 0
    = nth_error (detectFaces blind photo [face1] false) 0 /\
    r_age r = det_age face1 /\
    det_age face1 - (1 # 2) < inject_Z (Math_round (r_age r)) /\
    inject_Z (Math_round (r_age r)) <= det_age face1 + (1 # 2).
Proof.
  apply (ensemble_fallback blind photo [face1] 0 face1).
  - reflexivity.
  - intros c _. reflexivity.
Defined.

(** C3, as the specification words it, fails at age 0: the curve gives
    90 - 0.5 * 30 = 75 there, not 70. *)
Lemma confidence_at_age_zero_is_not_70 :
  ~ (Math_round (ageConfidenceCurve 0) = 70%Z).
Proof. vm_compute. discriminate. Qed.

(** C3, amended.  For every age the derived age confidence is
    round(clamp(90 - 0.5 * |age - 30|, 70, 95)) and lies between 70 and
    95; age 30 yields 90, age 90 yields 70 and age 0 yields 75; and every
    face returned by [detectFaces] carries such a confidence. *)
Theorem age_confidence_curve :
  (forall a,
      Math_round (ageConfidenceCurve a) = Math_round (Spec.confidence a) /\
      (70 <= Math_round (ageConfidenceCurve a) <= 95)%Z) /\
  Math_round (ageConfidenceCurve 30) = 90%Z /\
  Math_round (ageConfidenceCurve 90) = 70%Z /\
  Math_round (ageConfidenceCurve 0) = 75%Z /\
  (forall detectSingleFace img detections useEnsemble,
      Forall (fun f => exists a,
                  ageConfidence f = inject_Z (Math_round (ageConfidenceCurve a)) /\
                  70 <= ageConfidence f <= 95)
             (detectFaces detectSingleFace img detections useEnsemble)).
Proof.
  split; [| split; [| split; [| split]]];
    [| vm_compute; reflexivity | vm_compute; reflexivity
     | vm_compute; reflexivity |].
  - intros a. split.
    + apply Math_round_comp, curve_is_clamp.
    + apply rounded_curve_bounds.
  - intros osf img dets b. apply Forall_forall. intros f Hf.
    rewrite detectFaces_cases in Hf. apply in_map_iff in Hf.
    destruct Hf as (r & <- & Hr).
    apply In_mapi_from in Hr. destruct Hr as (d & k & _ & ->).
    assert (E : exists a, ageConfidence
                            ((if b then refine osf img else finalize)
                               (initialResult img d k))
                          = inject_Z (Math_round (ageConfidenceCurve a))).
    { destruct b.
      - apply refine_ageConfidence. simpl. eauto.
      - simpl. eauto. }
    destruct E as [a ->]. exists a. split; [reflexivity |].
    pose proof (rounded_curve_bounds a) as [L U].
    rewrite Zle_Qle in L, U. split; [exact L | exact U].
Qed.

(** C6.  The ensemble changes only the age, the age confidence, the
    gender and the gender confidence: whatever the crops return, each
    returned face has the id, the box and the landmarks of the initial
    full-image detection, and these are the canvas coordinates multiplied
    by the inverse of the upscale factor, that is, coordinates of the
    original image. *)
Theorem box_and_landmarks_from_initial_detection
    (detectSingleFace : Crop -> option SingleResult) (img : HTMLImageElement)
    (detections : list Detection) (useEnsemble : bool) :
  Forall2 (fun r f => id f = r_id r /\ box f = r_box r /\
                      landmarks f = r_landmarks r)
          (initialResults img detections)
          (detectFaces detectSingleFace img detections useEnsemble) /\
  Forall2 (fun d f =>
             box f = scaleBox (1 / scale img) (det_box d) /\
             landmarks f = map (scalePoint (1 / scale img)) (det_positions d))
          detections
          (detectFaces detectSingleFace img detections useEnsemble) /\
  map box (detectFaces detectSingleFace img detections useEnsemble)
  = map box (detectFaces detectSingleFace img detections false) /\
  map landmarks (detectFaces detectSingleFace img detections useEnsemble)
  = map landmarks (detectFaces detectSingleFace img detections false).
Proof.
  assert (F : forall r,
             id ((if useEnsemble then refine detectSingleFace img else finalize) r)
             = r_id r /\
             box ((if useEnsemble then refine detectSingleFace img else finalize) r)
             = r_box r /\
             landmarks ((if useEnsemble then refine detectSingleFace img else finalize) r)
             = r_landmarks r)
    by (intros r; destruct useEnsemble; [apply refine_frame | simpl; auto]).
  split; [| split; [apply detectFaces_coordinates |]];
    rewrite !detectFaces_cases.
  - induction (initialResults img detections) as [| r l IH]; simpl;
      constructor; auto.
  - split; rewrite !map_map; apply map_ext; intros r; simpl.
    + now destruct (F r) as (_ & -> & _).
    + now destruct (F r) as (_ & _ & ->).
Qed.

(** C4, as the specification words it, fails for an image that reports
    a width of 0: the code guards the division and takes
    1024 / max(1, 0) = 1024, where the formula has no quotient. *)
Lemma upscale_formula_fails_without_width : ~ Spec.upscale_agrees unsized.
Proof.
  intros (q & H & _). vm_compute in H. discriminate H.
Qed.

Lemma guarded_width (n : N) :
  Math_max 1 (QofN n) == inject_Z (Z.of_N (N.max 1 n)).
Proof.
  unfold Math_max, QofN.
  destruct (N.eq_dec n 0) as [-> | Hn].
  - reflexivity.
  - rewrite N.max_r by lia. apply Q.max_r. now apply QofN_ge_1.
Qed.

Lemma halved (k v : Q) : k == 2 -> v * (1 / k) == v / 2.
Proof. intros ->. field. Qed.

Lemma halved_points (k : Q) (ps : list Point) :
  k == 2 ->
  Forall2 (fun p q => px q == px p / 2 /\ py q == py p / 2)
          ps (map (scalePoint (1 / k)) ps).
Proof.
  intros Hk. induction ps as [| p ps IH]; simpl; constructor; [| exact IH].
  split; now apply halved.
Qed.

(** C4, amended.  The upscale factor is max(1, 1024 / max(1, width)):
    the formula of the specification for every width of at least 1 (and
    1024 for width 0); it is never below 1; every returned box and
    landmark coordinate is the canvas coordinate multiplied by the
    inverse of the factor; under factor 2 it is exactly half of it. *)
Theorem upscale_factor_and_inverse_mapping
    (detectSingleFace : Crop -> option SingleResult) (img : HTMLImageElement)
    (detections : list Detection) (useEnsemble : bool) :
  1 <= scale img /\
  (exists q, Spec.upscale (N.max 1 (naturalW img)) = Some q /\ scale img == q) /\
  (naturalW img <> 0%N -> Spec.upscale_agrees img) /\
  Forall2 (fun d f =>
             box f = scaleBox (1 / scale img) (det_box d) /\
             landmarks f = map (scalePoint (1 / scale img)) (det_positions d))
          detections
          (detectFaces detectSingleFace img detections useEnsemble) /\
  (scale img == 2 ->
   Forall2 (fun d f =>
              bx (box f) == bx (det_box d) / 2 /\
              by_ (box f) == by_ (det_box d) / 2 /\
              bwidth (box f) == bwidth (det_box d) / 2 /\
              bheight (box f) == bheight (det_box d) / 2 /\
              Forall2 (fun p q => px q == px p / 2 /\ py q == py p / 2)
                      (det_positions d) (landmarks f))
           detections
           (detectFaces detectSingleFace img detections useEnsemble)).
Proof.
  assert (G : exists q, Spec.upscale (N.max 1 (naturalW img)) = Some q /\
                        scale img == q).
  { unfold Spec.upscale.
    destruct (N.eqb_spec (N.max 1 (naturalW img)) 0) as [E | _]; [lia |].
    eexists. split; [reflexivity |].
    unfold scale, targetWidth. now rewrite guarded_width. }
  split; [apply scale_ge_1 |].
  split; [exact G |].
  split; [| split; [apply detectFaces_coordinates |]].
  - intros Hn. unfold Spec.upscale_agrees.
    rewrite N.max_r in G by lia. exact G.
  - intros Hs.
    pose proof (detectFaces_coordinates detectSingleFace img detections
                  useEnsemble) as C.
    induction C as [| d f ds fs [Hb Hl] _ IH]; constructor; [| exact IH].
    rewrite Hb, Hl. simpl.
    repeat split; try (now apply halved).
    now apply halved_points.
Qed.

Lemma upscale_factor_and_inverse_mapping_witness :
  Spec.upscale_agrees small /\
  Forall2 (fun d f =>
             bx (box f) == bx (det_box d) / 2 /\
             by_ (box f) == by_ (det_box d) / 2 /\
             bwidth (box f) == bwidth (det_box d) / 2 /\
             bheight (box f) == bheight (det_box d) / 2 /\
             Forall2 (fun p q => px q == px p / 2 /\ py q == py p / 2)
                     (det_positions d) (landmarks f))
          [face1] (detectFaces stub small [face1] true).
Proof.
  destruct (upscale_factor_and_inverse_mapping stub small [face1] true)
    as (_ & _ & Hagree & _ & Hhalf).
  split.
  - apply Hagree. discriminate.
  - apply Hhalf. reflexivity.
Defined.

(** C5: the code clamps the crop before it rounds it, and the rounding
    can push the right edge one pixel past the canvas.  On the 1024 x 768
    canvas of [photo], the box of [wide] (x = 171.5, width 684) lies
    within the canvas; padded by 0.25 its crop starts at 0.5 and is
    1023.5 wide; rounded, it starts at 1 and is 1024 wide. *)
Theorem rounded_crop_leaves_canvas :
  Spec.within (canvas_width photo) (canvas_height photo) (det_box wide) /\
  nth_error (crops (canvas_width photo) (canvas_height photo) (det_box wide)) 1
  = Some (mkCrop 1 0 1024 600) /\
  canvas_width photo = 1024%Z /\
  ~ Spec.crop_within (canvas_width photo) (canvas_height photo)
      (mkCrop 1 0 1024 600).
Proof.
  split; [| split; [| split]].
  - unfold Spec.within. repeat split; apply Qle_bool_iff; vm_compute; reflexivity.
  - vm_compute. reflexivity.
  - vm_compute. reflexivity.
  - unfold Spec.crop_within. vm_compute. intros (_ & _ & H & _). now apply H.
Qed.

End DetectFaces.

(* ================================================================= *)
(** ** Properties of [calculateAnalysisStats] *)

Module AnalysisStats.
Import JS FaceApi Stats JSFacts Samples.

(** C7.  In the copy of the file that rounds face by face, the average
    confidence is the rounded mean, over the faces, of
    round((ageConfidence + genderConfidence) / 2), and 0 for an empty list
    of faces; for the confidences (71, 70) and (70, 70) it is
    round((71 + 70) / 2) = 71.  The other copy gives 0 for an empty list
    too, but adds the halves unrounded: on the same two faces it gives
    round((70.5 + 70) / 2) = 70, against the 71 of the formula. *)
Theorem average_confidence
    (toFixed : Q -> nat -> string) (faces : list FaceDetectionResult)
    (elapsed : Q) (imageDimensions : N * N) :
  avgConfidence (calculateAnalysisStats toFixed faces elapsed imageDimensions)
  = match faces with
    | [] => 0%Z
    | _ :: _ => Math_round (Spec.mean (map (fun f => inject_Z (Spec.combined f)) faces))
    end /\
  avgConfidence (calculateAnalysisStats toFixed [] elapsed imageDimensions) = 0%Z /\
  totalFaces (calculateAnalysisStats toFixed faces elapsed imageDimensions)
  = List.length faces /\
  avgConfidence
    (calculateAnalysisStats_unrounded toFixed [] elapsed imageDimensions) = 0%Z /\
  map Spec.combined [faceA; faceB] = [71; 70]%Z /\
  Math_round (Spec.mean (map (fun f => inject_Z (Spec.combined f)) [faceA; faceB]))
  = 71%Z /\
  avgConfidence
    (calculateAnalysisStats toFixed [faceA; faceB] elapsed imageDimensions)
  = 71%Z /\
  avgConfidence
    (calculateAnalysisStats_unrounded toFixed [faceA; faceB] elapsed imageDimensions)
  = 70%Z.
Proof.
  split; [| split; [reflexivity | split; [reflexivity | split; [reflexivity |]]]].
  - destruct faces as [| f0 rest]; [reflexivity |].
    set (faces := f0 :: rest).
    unfold calculateAnalysisStats. cbv zeta.
    change (0 <? List.length faces)%nat with true. cbn [avgConfidence].
    apply Math_round_comp.
    unfold Spec.mean. rewrite length_map.
    pose proof (reduce_sum (fun f => inject_Z (Spec.combined f)) faces 0) as R.
    unfold Spec.combined in *. rewrite R. now rewrite Qplus_0_l.
  - split; [vm_compute; reflexivity |]. split; [vm_compute; reflexivity |].
    unfold calculateAnalysisStats, calculateAnalysisStats_unrounded.
    cbn [avgConfidence]. split; vm_compute; reflexivity.
Qed.

(** The copy of the file that does not round face by face gives another
    average already for two faces with confidences (71, 70) and (70, 70). *)
Lemma unrounded_copy_differs (toFixed : Q -> nat -> string) :
  avgConfidence (calculateAnalysisStats toFixed [faceA; faceB] 1200 (10, 10)%N)
  = 71%Z /\
  avgConfidence
    (calculateAnalysisStats_unrounded toFixed [faceA; faceB] 1200 (10, 10)%N)
  = 70%Z.
Proof. split; vm_compute; reflexivity. Qed.

End AnalysisStats.

(* ================================================================= *)
(** ** Properties of the routes *)

Module Routes.
Import JS Server JSFacts Samples.

Lemma Map_get_set_same {V} (k : string) (v : V) (m : Map V) :
  Map_get k (Map_set k v m) = Some v.
Proof.
  induction m as [| [k' v'] m IH]; simpl.
  - now rewrite String.eqb_refl.
  - destruct (String.eqb k' k) eqn:E; simpl; rewrite E; [reflexivity | exact IH].
Qed.

(** [MemStorage.createFaceAnalysis] always returns: the record it built
    is stored under its id, and the users are not touched. *)
Lemma Mem_createFaceAnalysis_returns (data : InsertFaceAnalysis) (m : MemStorage) :
  exists a m',
    Mem_createFaceAnalysis data m = (inr a, m') /\
    Map_get (id a) (analyses m') = Some a /\
    id a = randomUUID m (uuid_calls m) /\
    imageFileName a = ins_imageFileName data /\
    users m' = users m.
Proof.
  unfold Mem_createFaceAnalysis, bind, fresh_uuid, new_Date, analyses_set, ret.
  simpl. do 2 eexists. split; [reflexivity |]. simpl.
  repeat split. apply Map_get_set_same.
Qed.

Section AnyStorage.
Context {S : Type} {storage : IStorage S}.
Variable parse : Json -> Error + InsertFaceAnalysis.

Lemma post_invalid (req_body : Json) (e : Error) (s : S) :
  parse req_body = inl e ->
  post_api_analyses parse req_body s
  = (inr (mkResponse 400 (BodyError (message e))), s).
Proof.
  intros H. unfold post_api_analyses, try_catch, bind, call. now rewrite H.
Qed.

Lemma post_valid (req_body : Json) (data : InsertFaceAnalysis)
    (a : FaceAnalysis) (s s' : S) :
  parse req_body = inr data ->
  createFaceAnalysis data s = (inr a, s') ->
  post_api_analyses parse req_body s
  = (inr (mkResponse 200 (BodyAnalysis a)), s').
Proof.
  intros H C. unfold post_api_analyses, try_catch, bind, call.
  rewrite H. simpl. now rewrite C.
Qed.

(** The handler of one record maps each outcome of the storage call to
    a response. *)
Lemma get_id_outcomes (id : string) (s : S) :
  get_api_analyses_id id s
  = match getFaceAnalysis id s with
    | (inr (Some a), s') => (inr (mkResponse 200 (BodyAnalysis a)), s')
    | (inr None, s') =>
        (inr (mkResponse 404 (BodyError "Analysis not found")), s')
    | (inl e, s') => (inr (mkResponse 500 (BodyError (message e))), s')
    end.
Proof.
  unfold get_api_analyses_id, try_catch, bind.
  destruct (getFaceAnalysis id s) as [[e | [a |]] s']; reflexivity.
Qed.
End AnyStorage.

(** C8.  A body that fails validation is answered with status 400 and
    an error body, and storage is left as it was, whichever backend is in
    use; a valid body is answered with the record the backend created,
    which the in-memory backend always does, storing it under its id. *)
Theorem post_validation (parse : Json -> Error + InsertFaceAnalysis) :
  (forall (S : Type) (storage : IStorage S) (req_body : Json) (e : Error) (s : S),
      parse req_body = inl e ->
      post_api_analyses parse req_body s
      = (inr (mkResponse 400 (BodyError (message e))), s)) /\
  (forall (S : Type) (storage : IStorage S) (req_body : Json)
          (data : InsertFaceAnalysis) (a : FaceAnalysis) (s s' : S),
      parse req_body = inr data ->
      createFaceAnalysis data s = (inr a, s') ->
      post_api_analyses parse req_body s
      = (inr (mkResponse 200 (BodyAnalysis a)), s')) /\
  (forall (req_body : Json) (data : InsertFaceAnalysis) (m : MemStorage),
      parse req_body = inr data ->
      exists a m',
        post_api_analyses (storage := memStorage) parse req_body m
        = (inr (mkResponse 200 (BodyAnalysis a)), m') /\
        Map_get (id a) (analyses m') = Some a /\
        imageFileName a = ins_imageFileName data).
Proof.
  split; [| split].
  - intros S storage req_body e s H. now apply post_invalid.
  - intros S storage req_body data a s s' H C. now apply post_valid with data.
  - intros req_body data m H.
    destruct (Mem_createFaceAnalysis_returns data m)
      as (a & m' & C & G & _ & F & _).
    exists a, m'. split; [| split; assumption].
    now apply (post_valid (storage := memStorage)) with data.
Qed.

Lemma post_validation_witness :
  post_api_analyses (storage := memStorage) toy_parse JNull empty_store
  = (inr (mkResponse 400 (BodyError "Required")), empty_store) /\
  exists a m',
    post_api_analyses (storage := memStorage) toy_parse
      (JObject [("imageFileName"%string, JString "a.png")]) empty_store
    = (inr (mkResponse 200 (BodyAnalysis a)), m') /\
    Map_get (id a) (analyses m') = Some a /\
    imageFileName a = "a.png"%string.
Proof.
  destruct (post_validation toy_parse) as (Hbad & _ & Hgood).
  split.
  - apply (Hbad MemStorage memStorage JNull (mkError "Required") empty_store).
    reflexivity.
  - apply (Hgood (JObject [("imageFileName"%string, JString "a.png")])
                 (mkInsert "a.png" (JObject []) (JArray []) None) empty_store).
    reflexivity.
Defined.

(** Looking up a [Map] whose keys are distinct finds what is stored. *)
Lemma Map_get_of_In {V} (k : string) (v : V) (m : Map V) :
  NoDup (map fst m) -> In (k, v) m -> Map_get k m = Some v.
Proof.
  induction m as [| [k0 v0] m IH]; simpl; [tauto |].
  intros Hnd [E | Hin].
  - injection E as -> ->. now rewrite String.eqb_refl.
  - inversion Hnd as [| ? ? Hnotin Hnd']; subst.
    destruct (String.eqb_spec k0 k) as [-> | Hne].
    + exfalso. apply Hnotin. apply in_map_iff. now exists (k, v).
    + now apply IH.
Qed.

Lemma Map_get_absent {V} (k : string) (m : Map V) :
  ~ In k (map fst m) -> Map_get k m = None.
Proof.
  induction m as [| [k0 v0] m IH]; simpl; [reflexivity |].
  intros H. destruct (String.eqb_spec k0 k) as [-> | Hne]; [tauto |].
  apply IH. tauto.
Qed.

Lemma Map_set_keys {V} (k : string) (v : V) (m : Map V) :
  map fst (Map_set k v m)
  = if in_dec string_dec k (map fst m) then map fst m else map fst m ++ [k].
Proof.
  induction m as [| [k0 v0] m IH]; simpl; [reflexivity |].
  destruct (String.eqb_spec k0 k) as [-> | Hne]; simpl.
  - destruct (string_dec k k); [| congruence].
    reflexivity.
  - rewrite IH. destruct (string_dec k0 k); [congruence |].
    destruct (in_dec string_dec k (map fst m)); reflexivity.
Qed.

(** The keys of the analyses stay distinct when a record is created, as
    they are in a [Map]. *)
Lemma create_keeps_ids_distinct (data : InsertFaceAnalysis) (m m' : MemStorage)
    (a : FaceAnalysis) :
  NoDup (map fst (analyses m)) ->
  Mem_createFaceAnalysis data m = (inr a, m') ->
  NoDup (map fst (analyses m')).
Proof.
  intros Hnd C.
  unfold Mem_createFaceAnalysis, bind, fresh_uuid, new_Date, analyses_set, ret in C.
  simpl in C. injection C as _ <-. cbn [analyses]. rewrite Map_set_keys.
  destruct (in_dec string_dec _ (map fst (analyses m))) as [Hin | Hout];
    [exact Hnd |].
  apply NoDup_app; [exact Hnd | repeat constructor; simpl; tauto |].
  intros k Hk [<- | []]. contradiction.
Qed.

(** C9.  With the in-memory backend, when a record is stored under the
    id the handler of [GET /api/analyses/:id] answers 200 with that
    record, and when no record is stored under it the handler answers 404
    with the error "Analysis not found"; a record that was just created is
    answered under its id.  With any backend the handler ends with a
    response, never with a thrown error: a failure of the storage call
    becomes a status 500 with the message of the error. *)
Theorem get_by_id (id : string) :
  (forall (m : MemStorage) (a : FaceAnalysis),
      NoDup (map fst (analyses m)) ->
      In (id, a) (analyses m) ->
      get_api_analyses_id (storage := memStorage) id m
      = (inr (mkResponse 200 (BodyAnalysis a)), m)) /\
  (forall m : MemStorage,
      ~ In id (map fst (analyses m)) ->
      get_api_analyses_id (storage := memStorage) id m
      = (inr (mkResponse 404 (BodyError "Analysis not found")), m)) /\
  (forall (data : InsertFaceAnalysis) (m : MemStorage),
      exists a m',
        Mem_createFaceAnalysis data m = (inr a, m') /\
        get_api_analyses_id (storage := memStorage) (Server.id a) m'
        = (inr (mkResponse 200 (BodyAnalysis a)), m')) /\
  (forall (S : Type) (storage : IStorage S) (s : S),
      (exists resp s', get_api_analyses_id id s = (inr resp, s')) /\
      (forall e s', getFaceAnalysis id s = (inl e, s') ->
                    get_api_analyses_id id s
                    = (inr (mkResponse 500 (BodyError (message e))), s'))).
Proof.
  split; [| split; [| split]].
  - intros m a Hnd Hin. rewrite get_id_outcomes.
    change (getFaceAnalysis id m) with (Mem_getFaceAnalysis id m).
    unfold Mem_getFaceAnalysis, read. now rewrite (Map_get_of_In _ _ _ Hnd Hin).
  - intros m Hout. rewrite get_id_outcomes.
    change (getFaceAnalysis id m) with (Mem_getFaceAnalysis id m).
    unfold Mem_getFaceAnalysis, read. now rewrite (Map_get_absent _ _ Hout).
  - intros data m.
    destruct (Mem_createFaceAnalysis_returns data m) as (a & m' & C & G & _).
    exists a, m'. split; [exact C |]. rewrite get_id_outcomes.
    change (getFaceAnalysis (Server.id a) m')
      with (Mem_getFaceAnalysis (Server.id a) m').
    unfold Mem_getFaceAnalysis, read. now rewrite G.
  - intros S storage s. rewrite get_id_outcomes. split.
    + destruct (getFaceAnalysis id s) as [[e | [a |]] s']; eauto.
    + intros e s' E. now rewrite E.
Qed.

Lemma get_by_id_witness :
  get_api_analyses_id (storage := memStorage) "uuid-0" one_store
  = (inr (mkResponse 200 (BodyAnalysis stored)), one_store) /\
  get_api_analyses_id (storage := memStorage) "uuid-7" one_store
  = (inr (mkResponse 404 (BodyError "Analysis not found")), one_store).
Proof.
  split.
  - apply (proj1 (get_by_id "uuid-0") one_store stored).
    + repeat constructor. simpl. tauto.
    + left. reflexivity.
  - apply (proj1 (proj2 (get_by_id "uuid-7")) one_store).
    simpl. intros [H | []]. discriminate H.
Defined.

(** [one_store] is the store after one accepted [POST] on the empty one. *)
Lemma one_store_reached :
  post_api_analyses (storage := memStorage) toy_parse
    (JObject [("imageFileName"%string, JString "a.png")]) empty_store
  = (inr (mkResponse 200 (BodyAnalysis stored)), one_store).
Proof. reflexivity. Qed.

(** C10, as worded, fails for the empty string: [?limit=] is present and
    [parseInt] sends it to [NaN], but the empty string is falsy, so the
    handler never parses it and asks for the default 10 records. *)
Lemma empty_limit_gets_the_default :
  ~ Spec.nan_limit_gives_empty EmptyString one_store.
Proof.
  unfold Spec.nan_limit_gives_empty. intros H.
  specialize (H eq_refl). vm_compute in H. discriminate H.
Qed.

(** C10, amended.  When the [limit] parameter is present, not empty, and
    [parseInt] sends it to [NaN], the in-memory backend answers with the
    empty list instead of the 10 most recent records: the [NaN] reaches
    [slice], which selects nothing.  An empty [limit] is treated like an
    absent one. *)
Theorem nan_limit_returns_nothing (limit : string) (m : MemStorage) :
  limit <> EmptyString ->
  parseInt limit = NaN ->
  get_api_analyses (storage := memStorage) (Some limit) m
  = (inr (mkResponse 200 (BodyAnalyses [])), m) /\
  get_api_analyses (storage := memStorage) (Some EmptyString) m
  = get_api_analyses (storage := memStorage) None m.
Proof.
  intros Hne Hnan. split; [| reflexivity].
  unfold get_api_analyses, try_catch, bind. simpl.
  destruct limit as [| c l]; [congruence |]. cbn [truthy].
  rewrite Hnan.
  unfold Mem_getFaceAnalyses, bind, read, ret. cbn [nullish].
  now rewrite slice0_NaN.
Qed.

Lemma nan_limit_returns_nothing_witness :
  get_api_analyses (storage := memStorage) (Some "abc"%string) one_store
  = (inr (mkResponse 200 (BodyAnalyses [])), one_store) /\
  get_api_analyses (storage := memStorage) (Some EmptyString) one_store
  = get_api_analyses (storage := memStorage) None one_store.
Proof.
  apply (nan_limit_returns_nothing "abc" one_store).
  - discriminate.
  - reflexivity.
Defined.

End Routes.

(* ================================================================= *)
(** ** More arithmetic: rounding and means *)

Module MeanFacts.
Import JS JSFacts.

Lemma Math_round_le (hi : Z) (v : Q) : v <= inject_Z hi -> (Math_round v <= hi)%Z.
Proof.
  intros U. pose proof (Math_round_near v) as [_ N].
  assert (H : (Math_round v < hi + 1)%Z); [| lia].
  rewrite Zlt_Qlt, inject_Z_plus. change (inject_Z 1) with 1.
  unfold Math_round in *.
  pose proof (Qfloor_le (v + (1 # 2))) as F. lra.
Qed.

Lemma Math_round_ge (lo : Z) (v : Q) : inject_Z lo <= v -> (lo <= Math_round v)%Z.
Proof.
  intros L. unfold Math_round. rewrite <- (Qfloor_Z lo).
  apply Qfloor_resp_le. lra.
Qed.

Lemma length_pos_Q {A} (l : list A) :
  l <> [] -> 0 < inject_Z (Z.of_nat (List.length l)).
Proof.
  intros H. destruct l as [| a l]; [congruence |].
  change 0 with (inject_Z 0). rewrite <- Zlt_Qlt. simpl. lia.
Qed.

(** The sum of [n] numbers between [lo] and [hi] lies between [n * lo]
    and [n * hi]. *)
Lemma sum_between (lo hi : Q) (l : list Q) :
  Forall (fun v => lo <= v <= hi) l ->
  inject_Z (Z.of_nat (List.length l)) * lo <= Spec.sum l /\
  Spec.sum l <= inject_Z (Z.of_nat (List.length l)) * hi.
Proof.
  induction 1 as [| v l [Hl Hh] _ [IHl IHh]].
  - cbn [List.length Spec.sum fold_right].
    change (inject_Z (Z.of_nat 0)) with 0. split; lra.
  - cbn [List.length Spec.sum fold_right].
    rewrite Nat2Z.inj_succ. unfold Z.succ. rewrite inject_Z_plus.
    change (inject_Z 1) with 1. unfold Spec.sum in *.
    set (n := inject_Z (Z.of_nat (List.length l))) in *.
    assert (El : (n + 1) * lo == n * lo + lo) by ring.
    assert (Eh : (n + 1) * hi == n * hi + hi) by ring.
    rewrite El, Eh. split; lra.
Qed.

(** The mean of a non-empty list lies between any bounds of its elements. *)
Lemma mean_between (lo hi : Q) (l : list Q) :
  l <> [] ->
  Forall (fun v => lo <= v <= hi) l ->
  lo <= Spec.mean l <= hi.
Proof.
  intros Hne Hall. pose proof (length_pos_Q l Hne) as P.
  destruct (sum_between lo hi l Hall) as [L U].
  unfold Spec.mean. set (n := inject_Z (Z.of_nat (List.length l))) in *.
  split.
  - apply Qle_shift_div_l; [exact P | lra].
  - apply Qle_shift_div_r; [exact P | lra].
Qed.

End MeanFacts.

(* ================================================================= *)
(** ** [detectFaces]: ids, canvas size, crops, ranges *)

Module DetectFacesMore.
Import JS FaceApi JSFacts CurveFacts EnsembleFacts MeanFacts Samples.

Lemma string_of_nat_inj (i j : nat) : string_of_nat i = string_of_nat j -> i = j.
Proof.
  unfold string_of_nat. intros H.
  apply DecimalNat.Unsigned.to_uint_inj.
  assert (E : Some (Nat.to_uint i) = Some (Nat.to_uint j))
    by (rewrite <- !NilEmpty.usu; now rewrite H).
  now injection E.
Qed.

Lemma face_id_inj : Injective face_id.
Proof.
  intros i j H. unfold face_id in H. simpl in H.
  injection H as H. apply string_of_nat_inj in H. lia.
Qed.

Lemma map_mapi_from_seq {A B C} (h : B -> C) (f : A -> nat -> B) (e : nat -> C) :
  (forall a i, h (f a i) = e i) ->
  forall l k, map h (mapi_from f k l) = map e (seq k (List.length l)).
Proof.
  intros E. induction l as [| a l IH]; intros k; simpl; [reflexivity |].
  now rewrite E, IH.
Qed.

(** [detectFaces] returns one face per detection, in the order of the
    detections; the i-th one (from 0) has id [face-(i+1)], so the ids are
    pairwise distinct. *)
Theorem faces_in_order_with_distinct_ids
    (detectSingleFace : Crop -> option SingleResult) (img : HTMLImageElement)
    (detections : list Detection) (useEnsemble : bool) :
  List.length (detectFaces detectSingleFace img detections useEnsemble)
  = List.length detections /\
  map id (detectFaces detectSingleFace img detections useEnsemble)
  = map face_id (seq 0 (List.length detections)) /\
  NoDup (map id (detectFaces detectSingleFace img detections useEnsemble)).
Proof.
  assert (M : map id (detectFaces detectSingleFace img detections useEnsemble)
              = map face_id (seq 0 (List.length detections))).
  { rewrite detectFaces_cases, map_map. unfold initialResults, mapi.
    apply map_mapi_from_seq. intros d k.
    destruct useEnsemble; [| reflexivity].
    now destruct (refine_frame detectSingleFace img (initialResult img d k))
      as (-> & _). }
  split; [| split; [exact M |]].
  - rewrite detectFaces_cases, length_map. unfold initialResults, mapi.
    apply mapi_from_length.
  - rewrite M. apply Injective_map_NoDup; [exact face_id_inj | apply seq_NoDup].
Qed.

Lemma QofN_pos (n : N) : n <> 0%N -> 0 < QofN n.
Proof. intros H. pose proof (QofN_ge_1 n H). lra. Qed.

Lemma scale_small_width (img : HTMLImageElement) :
  naturalW img <> 0%N -> (naturalW img <= 1024)%N ->
  scale img == 1024 / QofN (naturalW img).
Proof.
  intros Hn Hs. unfold scale, targetWidth, Math_max.
  rewrite (Q.max_r 1 (QofN (naturalW img))) by now apply QofN_ge_1.
  apply Q.max_r. apply Qle_shift_div_l; [now apply QofN_pos |].
  unfold QofN. change 1024 with (inject_Z 1024). rewrite Qmult_1_l.
  rewrite <- Zle_Qle. lia.
Qed.

Lemma scale_large_width (img : HTMLImageElement) :
  (1024 <= naturalW img)%N -> scale img == 1.
Proof.
  intros Hs. assert (Hn : naturalW img <> 0%N) by lia.
  unfold scale, targetWidth, Math_max.
  rewrite (Q.max_r 1 (QofN (naturalW img))) by now apply QofN_ge_1.
  apply Q.max_l. apply Qle_shift_div_r; [now apply QofN_pos |].
  unfold QofN. change 1024 with (inject_Z 1024). rewrite Qmult_1_l.
  rewrite <- Zle_Qle. lia.
Qed.

(** The detection canvas is never narrower than the image and never
    narrower than 1024 pixels: its width is max(1024, natural width) for an
    image of non-zero width, and 0 otherwise.  An image at least 1024 wide
    is used at its own size. *)
Theorem canvas_never_downscaled (img : HTMLImageElement) :
  canvas_width img
  = (if N.eqb (naturalW img) 0 then 0 else Z.max 1024 (Z.of_N (naturalW img)))%Z /\
  ((1024 <= naturalW img)%N ->
   canvas_width img = Z.of_N (naturalW img) /\
   canvas_height img = Z.of_N (naturalH img)).
Proof.
  assert (Big : (1024 <= naturalW img)%N ->
                canvas_width img = Z.of_N (naturalW img) /\
                canvas_height img = Z.of_N (naturalH img)).
  { intros Hs. pose proof (scale_large_width img Hs) as E.
    unfold canvas_width, canvas_height. split.
    - rewrite <- (Math_round_Z (Z.of_N (naturalW img))).
      apply Math_round_comp. rewrite E. unfold QofN. ring.
    - rewrite <- (Math_round_Z (Z.of_N (naturalH img))).
      apply Math_round_comp. rewrite E. unfold QofN. ring. }
  split; [| exact Big].
  destruct (N.eqb_spec (naturalW img) 0) as [E0 | Hn].
  - unfold canvas_width. rewrite E0. rewrite <- (Math_round_Z 0).
    apply Math_round_comp. change (QofN 0) with 0. change (inject_Z 0) with 0.
    ring.
  - destruct (N.le_gt_cases 1024 (naturalW img)) as [Hs | Hs].
    + destruct (Big Hs) as [-> _]. lia.
    + rewrite Z.max_l by lia.
      unfold canvas_width. rewrite <- (Math_round_Z 1024).
      apply Math_round_comp.
      rewrite (scale_small_width img Hn) by lia.
      pose proof (QofN_pos _ Hn) as P. change (inject_Z 1024) with 1024.
      field. lra.
Qed.

Lemma canvas_never_downscaled_witness :
  canvas_width small = 1024%Z /\
  canvas_width photo = 1024%Z /\ canvas_height photo = 768%Z.
Proof.
  split.
  - exact (proj1 (canvas_never_downscaled small)).
  - apply (proj2 (canvas_never_downscaled photo)). vm_compute. discriminate.
Defined.

(** There are always three crops.  Each rounded crop has a non-negative
    origin, is no wider and no higher than the canvas, and passes its right
    and bottom edges by at most one pixel. *)
Theorem crops_near_canvas (W H : Z) (raw : Box) :
  List.length (crops W H raw) = 3%nat /\
  Forall (fun c => (0 <= cx c /\ 0 <= cy c /\
                    cx c + cw c <= W + 1 /\ cy c + ch c <= H + 1 /\
                    cw c <= W /\ ch c <= H)%Z)
         (crops W H raw).
Proof.
  split; [reflexivity |].
  unfold crops. apply Forall_forall. intros c Hc.
  apply in_map_iff in Hc. destruct Hc as (pad & <- & _).
  destruct (crop_rounded_bounds W H raw pad) as (Hx & Hy & Hw & Hh).
  pose proof (cropRect_within W H raw pad) as R.
  unfold crop in *. destruct (cropRect W H raw pad) as [[[x0 y0] w0] h0].
  destruct R as (Rx & Ry & Rw & Rh). simpl in *.
  repeat split; try assumption; apply Math_round_le; lra.
Qed.



Lemma filter_Boolean_In {A} (a : A) (l : list (option A)) :
  In a (filter_Boolean l) -> In (Some a) l.
Proof.
  induction l as [| [b |] l IH]; simpl; [tauto | |].
  - intros [-> | H]; auto.
  - auto.
Qed.

(** Every valid prediction is what the network said about one crop. *)
Lemma valid_from_crop detectSingleFace img r (p : Pred) :
  In p (valid detectSingleFace img r) ->
  exists c s, detectSingleFace c = Some s /\
              p = mkPred (s_age s) (s_gender s) (nullish (s_genderProbability s) 0).
Proof.
  intros H. apply filter_Boolean_In in H. unfold preds in H.
  apply in_map_iff in H. destruct H as (c & E & _).
  destruct (detectSingleFace c) as [s |] eqn:D; simpl in E; [| discriminate].
  injection E as <-. eauto.
Qed.

Lemma percentage (p : Q) :
  0 <= p <= 1 -> 0 <= inject_Z (Math_round (p * 100)) <= 100.
Proof.
  intros [L U].
  destruct (Math_round_between 0 100 (p * 100)) as [A B];
    [change (inject_Z 0) with 0; lra | change (inject_Z 100) with 100; lra |].
  rewrite Zle_Qle in A, B. split; [exact A | exact B].
Qed.

(** When the network reports gender probabilities between 0 and 1, on the
    full canvas and on the crops, every returned gender confidence is a
    percentage between 0 and 100, with or without the ensemble. *)
Theorem gender_confidence_is_a_percentage
    (detectSingleFace : Crop -> option SingleResult) (img : HTMLImageElement)
    (detections : list Detection) (useEnsemble : bool) :
  Forall (fun d => 0 <= nullish (det_genderProbability d) 0 <= 1) detections ->
  (forall c s, detectSingleFace c = Some s ->
               0 <= nullish (s_genderProbability s) 0 <= 1) ->
  Forall (fun f => 0 <= genderConfidence f <= 100)
         (detectFaces detectSingleFace img detections useEnsemble).
Proof.
  intros Hd Hs. apply Forall_forall. intros f Hf.
  rewrite detectFaces_cases in Hf. apply in_map_iff in Hf.
  destruct Hf as (r & <- & Hr).
  apply In_mapi_from in Hr. destruct Hr as (d & k & Hin & ->).
  rewrite Forall_forall in Hd. specialize (Hd d Hin).
  assert (F : 0 <= genderConfidence (finalize (initialResult img d k)) <= 100)
    by (simpl; now apply percentage).
  destruct useEnsemble; [| exact F].
  destruct (valid detectSingleFace img (initialResult img d k)) as [| p v] eqn:V.
  - now rewrite (refine_no_valid _ _ _ V).
  - rewrite (refine_valid _ _ _ _ _ V). cbn [genderConfidence]. apply percentage.
    apply mean_between; [discriminate |].
    apply Forall_forall. intros q Hq. apply in_map_iff in Hq.
    destruct Hq as (p' & <- & Hp'). rewrite <- V in Hp'.
    apply valid_from_crop in Hp'. destruct Hp' as (c & s & Hc & ->).
    simpl. now apply (Hs c).
Qed.

Lemma gender_confidence_is_a_percentage_witness :
  Forall (fun f => 0 <= genderConfidence f <= 100)
         (detectFaces stub photo [face1] true).
Proof.
  apply gender_confidence_is_a_percentage.
  - repeat constructor; apply Qle_bool_iff; reflexivity.
  - intros c s H. unfold stub in H.
    destruct (cx c =? 190)%Z; [injection H as <-; split; apply Qle_bool_iff; reflexivity |].
    destruct (cx c =? 175)%Z; [injection H as <-; split; apply Qle_bool_iff; reflexivity |].
    destruct (cx c =? 155)%Z; [injection H as <-; split; apply Qle_bool_iff; reflexivity |].
    discriminate.
Defined.



End DetectFacesMore.

(* ================================================================= *)
(** ** Confidence bands, statistics and progress *)

Module ConfidenceFacts.
Import JS FaceApi Stats Utils Component JSFacts CurveFacts EnsembleFacts MeanFacts Samples.

(** [getConfidenceLevel] and [getConfidenceLevelColor] cut the scale at the
    same places: each label goes with one colour. *)
Theorem level_and_color_agree (confidence : Q) :
  (getConfidenceLevel confidence = "High Confidence"%string <->
   getConfidenceLevelColor confidence = "text-accent"%string) /\
  (getConfidenceLevel confidence = "Good Confidence"%string <->
   getConfidenceLevelColor confidence = "text-secondary-foreground"%string) /\
  (getConfidenceLevel confidence = "Medium Confidence"%string <->
   getConfidenceLevelColor confidence = "text-muted-foreground"%string) /\
  (getConfidenceLevel confidence = "Low Confidence"%string <->
   getConfidenceLevelColor confidence = "text-destructive"%string).
Proof.
  unfold getConfidenceLevel, getConfidenceLevelColor.
  destruct (Qle_bool 90 confidence), (Qle_bool 75 confidence),
    (Qle_bool 60 confidence);
    repeat split; intros H; try reflexivity; discriminate H.
Qed.

Lemma level_not_low (c : Q) : 60 <= c -> getConfidenceLevel c <> "Low Confidence"%string.
Proof.
  intros H. apply Qle_bool_iff in H. unfold getConfidenceLevel.
  destruct (Qle_bool 90 c); [discriminate |].
  destruct (Qle_bool 75 c); [discriminate |].
  rewrite H. discriminate.
Qed.

Lemma detectFaces_ageConfidence_ge_70 detectSingleFace img detections useEnsemble f :
  In f (detectFaces detectSingleFace img detections useEnsemble) ->
  70 <= ageConfidence f.
Proof.
  intros Hf. rewrite detectFaces_cases in Hf. apply in_map_iff in Hf.
  destruct Hf as (r & <- & Hr).
  apply In_mapi_from in Hr. destruct Hr as (d & k & _ & ->).
  assert (E : exists a, ageConfidence
                          ((if useEnsemble then refine detectSingleFace img
                            else finalize) (initialResult img d k))
                        = inject_Z (Math_round (ageConfidenceCurve a))).
  { destruct useEnsemble.
    - apply refine_ageConfidence. simpl. eauto.
    - simpl. eauto. }
  destruct E as [a ->].
  pose proof (rounded_curve_bounds a) as [L _]. rewrite Zle_Qle in L. exact L.
Qed.

(** On the card of a face returned by [detectFaces], the combined
    confidence is at least 60 as soon as the gender confidence is at least
    50, so the card never reads "Low Confidence". *)
Theorem card_is_never_low_confidence
    (detectSingleFace : Crop -> option SingleResult) (img : HTMLImageElement)
    (detections : list Detection) (useEnsemble : bool) (f : FaceDetectionResult) :
  In f (detectFaces detectSingleFace img detections useEnsemble) ->
  50 <= genderConfidence f ->
  (60 <= combinedConfidence f)%Z /\
  getConfidenceLevel (inject_Z (combinedConfidence f)) <> "Low Confidence"%string.
Proof.
  intros Hf Hg. pose proof (detectFaces_ageConfidence_ge_70 _ _ _ _ _ Hf) as Ha.
  assert (C : (60 <= combinedConfidence f)%Z).
  { unfold combinedConfidence. apply Math_round_ge.
    change (inject_Z 60) with 60. apply Qle_shift_div_l; lra. }
  split; [exact C |].
  apply level_not_low. rewrite Zle_Qle in C. exact C.
Qed.

Lemma card_is_never_low_confidence_witness :
  Forall (fun f => (60 <= combinedConfidence f)%Z /\
                   getConfidenceLevel (inject_Z (combinedConfidence f))
                   <> "Low Confidence"%string)
         (detectFaces stub photo [face1] true).
Proof.
  apply Forall_forall. intros f Hf.
  apply (card_is_never_low_confidence stub photo [face1] true f Hf).
  vm_compute in Hf. destruct Hf as [<- | []].
  apply Qle_bool_iff. reflexivity.
Defined.

Lemma rounded_total (faces : list FaceDetectionResult) :
  reduce (fun sum face =>
            let combined :=
              Math_round ((ageConfidence face + genderConfidence face) / 2) in
            sum + inject_Z combined) 0 faces
  == Spec.sum (map (fun f => inject_Z (combinedConfidence f)) faces).
Proof.
  pose proof (reduce_sum (fun f => inject_Z (combinedConfidence f)) faces 0) as R.
  unfold combinedConfidence in *. rewrite R. ring.
Qed.

Lemma unrounded_total (faces : list FaceDetectionResult) :
  reduce (fun sum face => sum + (ageConfidence face + genderConfidence face) / 2)
         0 faces
  == Spec.sum (map (fun f => (ageConfidence f + genderConfidence f) / 2) faces).
Proof.
  rewrite (reduce_sum (fun f => (ageConfidence f + genderConfidence f) / 2)).
  ring.
Qed.

(** The average confidence of a non-empty list of faces lies within any
    integer range that holds the combined confidences of the faces; in
    particular it is a percentage when they are. *)
Theorem average_within_range
    (toFixed : Q -> nat -> string) (faces : list FaceDetectionResult)
    (elapsed : Q) (imageDimensions : N * N) (lo hi : Z) :
  faces <> [] ->
  Forall (fun f => (lo <= combinedConfidence f <= hi)%Z) faces ->
  (lo <= avgConfidence (calculateAnalysisStats toFixed faces elapsed imageDimensions)
   <= hi)%Z.
Proof.
  intros Hne Hall.
  destruct faces as [| f0 rest]; [congruence |].
  set (faces := f0 :: rest) in *.
  unfold calculateAnalysisStats. cbv zeta.
  change (0 <? List.length faces)%nat with true. cbn [avgConfidence].
  assert (M : inject_Z lo
              <= Spec.mean (map (fun f => inject_Z (combinedConfidence f)) faces)
              <= inject_Z hi).
  { apply mean_between; [discriminate |].
    apply Forall_forall. intros q Hq. apply in_map_iff in Hq.
    destruct Hq as (f & <- & Hf). rewrite Forall_forall in Hall.
    destruct (Hall f Hf) as [L U]. rewrite Zle_Qle in L, U. split; assumption. }
  unfold Spec.mean in M. rewrite length_map in M.
  rewrite <- rounded_total in M. destruct M as [L U].
  now apply Math_round_between.
Qed.

Lemma average_within_range_witness :
  (70 <= avgConfidence
           (calculateAnalysisStats (fun _ _ => "1.2"%string) [faceA; faceB] 1200
              (10, 10)%N)
   <= 71)%Z.
Proof.
  apply average_within_range.
  - discriminate.
  - repeat constructor; vm_compute; discriminate.
Defined.

Lemma sum_rounded_near (l : list Q) :
  let n := inject_Z (Z.of_nat (List.length l)) in
  Spec.sum l - n * (1 # 2) <= Spec.sum (map (fun v => inject_Z (Math_round v)) l) /\
  Spec.sum (map (fun v => inject_Z (Math_round v)) l) <= Spec.sum l + n * (1 # 2).
Proof.
  cbv zeta. induction l as [| v l [IHl IHu]].
  - cbn [List.length map Spec.sum fold_right].
    change (inject_Z (Z.of_nat 0)) with 0. split; lra.
  - cbn [List.length map Spec.sum fold_right] in *.
    rewrite Nat2Z.inj_succ. unfold Z.succ. rewrite inject_Z_plus.
    change (inject_Z 1) with 1. unfold Spec.sum in *.
    set (n := inject_Z (Z.of_nat (List.length l))) in *.
    pose proof (Math_round_near v) as [N1 N2].
    assert (E : (n + 1) * (1 # 2) == n * (1 # 2) + (1 # 2)) by ring.
    rewrite E. split; lra.
Qed.

(** The two copies of [calculateAnalysisStats] kept in the repository, one
    rounding face by face and one not, never differ by more than one
    point. *)
Theorem copies_differ_by_at_most_one
    (toFixed : Q -> nat -> string) (faces : list FaceDetectionResult)
    (elapsed : Q) (imageDimensions : N * N) :
  (Z.abs (avgConfidence (calculateAnalysisStats toFixed faces elapsed imageDimensions)
          - avgConfidence
              (calculateAnalysisStats_unrounded toFixed faces elapsed imageDimensions))
   <= 1)%Z.
Proof.
  destruct faces as [| f0 rest]; [cbn; lia |].
  set (faces := f0 :: rest) in *.
  unfold calculateAnalysisStats, calculateAnalysisStats_unrounded. cbv zeta.
  change (0 <? List.length faces)%nat with true. cbn [avgConfidence].
  set (n := inject_Z (Z.of_nat (List.length faces))).
  assert (P : 0 < n) by (apply length_pos_Q; discriminate).
  pose proof (rounded_total faces) as Rr.
  pose proof (unrounded_total faces) as Ru.
  set (Sr := reduce _ 0 faces) in *.
  set (Su := reduce (fun sum face =>
                       sum + (ageConfidence face + genderConfidence face) / 2)
                    0 faces) in *.
  pose proof (sum_rounded_near
                (map (fun f => (ageConfidence f + genderConfidence f) / 2) faces))
    as S.
  cbv zeta in S. rewrite length_map, map_map in S. fold n in S.
  assert (S' : Su - n * (1 # 2) <= Sr /\ Sr <= Su + n * (1 # 2)).
  { rewrite Rr, Ru. exact S. }
  clear S. rename S' into S.
  destruct S as [S1 S2].
  assert (M1 : Su / n - (1 # 2) <= Sr / n).
  { apply Qle_shift_div_l; [exact P |].
    assert (E : (Su / n - (1 # 2)) * n == Su - n * (1 # 2)) by (field; lra).
    rewrite E. exact S1. }
  assert (M2 : Sr / n <= Su / n + (1 # 2)).
  { apply Qle_shift_div_r; [exact P |].
    assert (E : (Su / n + (1 # 2)) * n == Su + n * (1 # 2)) by (field; lra).
    rewrite E. exact S2. }
  pose proof (Math_round_near (Sr / n)) as [A1 A2].
  pose proof (Math_round_near (Su / n)) as [B1 B2].
  set (a := Math_round (Sr / n)) in *. set (b := Math_round (Su / n)) in *.
  assert (H1 : (a < b + 2)%Z).
  { rewrite Zlt_Qlt, inject_Z_plus. change (inject_Z 2) with 2. lra. }
  assert (H2 : (b < a + 2)%Z).
  { rewrite Zlt_Qlt, inject_Z_plus. change (inject_Z 2) with 2. lra. }
  lia.
Qed.

(** The simulated progress after [k] ticks from 0 is min(10 k, 90): it
    grows by 10 per tick and stops at 90 until the analysis ends. *)
Theorem progress_after_ticks (k : nat) :
  Nat.iter k progressTick 0 == Qmin (inject_Z (10 * Z.of_nat k)) 90 /\
  Nat.iter k progressTick 0 <= 90.
Proof.
  assert (E : Nat.iter k progressTick 0 == Qmin (inject_Z (10 * Z.of_nat k)) 90).
  { induction k as [| k IH].
    - reflexivity.
    - change (Nat.iter (S k) progressTick 0)
        with (progressTick (Nat.iter k progressTick 0)).
      unfold progressTick at 1, Math_min. rewrite IH.
      rewrite Nat2Z.inj_succ. unfold Z.succ.
      rewrite Z.mul_add_distr_l, inject_Z_plus. change (inject_Z (10 * 1)) with 10.
      set (t := inject_Z (10 * Z.of_nat k)).
      destruct (Q.min_spec t 90) as [[I1 ->] | [I1 ->]];
        destruct (Q.min_spec (t + 10) 90) as [[I2 ->] | [I2 ->]];
        try (destruct (Q.min_spec (90 + 10) 90) as [[I3 ->] | [I3 ->]]);
        try (destruct (Q.min_spec (t + 10) 90) as [[I3 E3] | [I3 E3]]; rewrite E3);
        lra. }
  split; [exact E |]. rewrite E. apply Q.le_min_r.
Qed.

End ConfidenceFacts.

(* ================================================================= *)
(** ** The overlay, the local history and the CSV export *)

Module ComponentFacts.
Import JS FaceApi Utils Component Measures JSFacts MeanFacts DetectFacesMore.
Import Samples MoreSamples.

Section Overlay.
Variable show : Q -> string.
Variable measureText : string -> string -> Q.

Lemma stroke_boxes_faces (scaleX scaleY : Q) (faces : list FaceDetectionResult) :
  stroke_boxes (flat_map (face_ops show measureText scaleX scaleY) faces)
  = map (displayBox scaleX scaleY) faces.
Proof.
  induction faces as [| f faces IH]; [reflexivity |].
  cbn [flat_map map]. unfold stroke_boxes in *. rewrite flat_map_app, IH.
  unfold face_ops. destruct (displayBox scaleX scaleY f) as [[[sx sy] sw] sh].
  reflexivity.
Qed.

(** What the overlay strokes: one rectangle per face, the box of the face
    scaled by display size over natural size on each axis. *)
Lemma drawn_boxes (canvas : Canvas) (image : DisplayedImage)
    (faces : list FaceDetectionResult) :
  let result := drawFaceOverlays show measureText true canvas image faces in
  stroke_boxes (c_ops result)
  = map (displayBox
           (inject_Z (c_width result) / QofN (naturalWidth (element image)))
           (inject_Z (c_height result) / QofN (naturalHeight (element image))))
        faces.
Proof.
  cbv zeta. unfold drawFaceOverlays. cbn [negb c_ops c_width c_height].
  unfold stroke_boxes at 1. cbn [flat_map app].
  apply stroke_boxes_faces.
Qed.


(** Shown at its natural size, the image gets each face stroked exactly
    on its box. *)
Theorem overlay_at_natural_size (canvas : Canvas) (image : DisplayedImage)
    (faces : list FaceDetectionResult) :
  naturalWidth (element image) <> 0%N ->
  naturalHeight (element image) <> 0%N ->
  displayWidth image = naturalWidth (element image) ->
  displayHeight image = naturalHeight (element image) ->
  Forall2 (fun f '(x, y, w, h) =>
             x == bx (box f) /\ y == by_ (box f) /\
             w == bwidth (box f) /\ h == bheight (box f))
          faces
          (stroke_boxes
             (c_ops (drawFaceOverlays show measureText true canvas image faces))).
Proof.
  intros Hw Hh Ew Eh.
  pose proof (drawn_boxes canvas image faces) as D. cbv zeta in D. rewrite D.
  assert (CW : c_width (drawFaceOverlays show measureText true canvas image faces)
               = Z.of_N (naturalWidth (element image)))
    by (rewrite <- Ew; apply Math_round_Z).
  assert (CH : c_height (drawFaceOverlays show measureText true canvas image faces)
               = Z.of_N (naturalHeight (element image)))
    by (rewrite <- Eh; apply Math_round_Z).
  rewrite CW, CH. fold (QofN (naturalWidth (element image))).
  fold (QofN (naturalHeight (element image))).
  pose proof (QofN_pos _ Hw) as Pw. pose proof (QofN_pos _ Hh) as Ph.
  set (nw := QofN (naturalWidth (element image))) in *.
  set (nh := QofN (naturalHeight (element image))) in *.
  clear D CW CH.
  induction faces as [| f faces IH]; simpl; constructor; [| exact IH].
  repeat split; field; lra.
Qed.
End Overlay.


Lemma overlay_at_natural_size_witness :
  Forall2 (fun f '(x, y, w, h) =>
             x == bx (box f) /\ y == by_ (box f) /\
             w == bwidth (box f) /\ h == bheight (box f))
          [face_in_photo]
          (stroke_boxes
             (c_ops (drawFaceOverlays show_zero measure_zero true (mkCanvas 0 0 [])
                       shown_natural [face_in_photo]))).
Proof.
  apply (overlay_at_natural_size show_zero measure_zero (mkCanvas 0 0 [])
           shown_natural [face_in_photo]).
  - discriminate.
  - discriminate.
  - reflexivity.
  - reflexivity.
Defined.

(** The history update puts the new analysis first and keeps the earlier
    ones in order; a history of at most 10 entries stays at most 10 long,
    its oldest entry making room when it is full.  The length after the
    update is the old one plus one below 10, and the old one from 10 on. *)
Theorem history_keeps_ten {A} (localHistory : list A) (newAnalysis : A) :
  List.length (updateHistory localHistory newAnalysis)
  = (if (List.length localHistory <? 10)%nat then S (List.length localHistory)
     else List.length localHistory) /\
  hd_error (updateHistory localHistory newAnalysis) = Some newAnalysis /\
  ((List.length localHistory <= 10)%nat ->
   updateHistory localHistory newAnalysis = firstn 10 (newAnalysis :: localHistory) /\
   (List.length (updateHistory localHistory newAnalysis) <= 10)%nat).
Proof.
  unfold updateHistory. cbn [List.length].
  assert (R : forall (l : list A) (a : A),
             List.length (removelast (a :: l)) = List.length l).
  { induction l as [| b l IH]; intros a; [reflexivity |].
    change (removelast (a :: b :: l)) with (a :: removelast (b :: l)).
    cbn [List.length]. now rewrite IH. }
  assert (Hd : forall (l : list A) (a : A),
             l <> [] -> hd_error (removelast (a :: l)) = Some a).
  { intros [| b l] a H; [congruence | reflexivity]. }
  destruct (Nat.ltb_spec 10 (S (List.length localHistory))) as [Big | Small].
  - assert (Hne : localHistory <> []) by (destruct localHistory; simpl in *; [lia | discriminate]).
    split; [| split].
    + pose proof (R localHistory newAnalysis) as E. simpl in E. simpl. rewrite E.
      destruct (Nat.ltb_spec (List.length localHistory) 10); [lia | reflexivity].
    + now apply Hd.
    + intros Le. assert (E10 : List.length localHistory = 10%nat) by lia.
      split.
      * rewrite removelast_firstn_len. cbn [List.length]. rewrite E10. reflexivity.
      * pose proof (R localHistory newAnalysis) as E. simpl in E. simpl.
        rewrite E. lia.
  - split; [| split].
    + cbn [List.length].
      destruct (Nat.ltb_spec (List.length localHistory) 10); [reflexivity | lia].
    + reflexivity.
    + intros _. split.
      * symmetry. apply firstn_all2. simpl. lia.
      * simpl. lia.
Qed.

Lemma history_keeps_ten_witness :
  updateHistory (seq 1 10) 0%nat = seq 0 10 /\
  (List.length (updateHistory (seq 1 10) 0%nat) <= 10)%nat.
Proof.
  apply (proj2 (proj2 (history_keeps_ten (seq 1 10) 0%nat))).
  simpl. lia.
Defined.

Lemma count_newlines_app (a b : string) :
  count_newlines (a ++ b) = (count_newlines a + count_newlines b)%nat.
Proof.
  induction a as [| c a IH]; simpl; [reflexivity |]. rewrite IH. lia.
Qed.

Lemma count_newlines_concat (rows : list string) :
  Forall (fun r => count_newlines r = 0%nat) rows ->
  count_newlines (String.concat newline rows) = pred (List.length rows).
Proof.
  induction 1 as [| r rows Hr Hrows IH]; [reflexivity |].
  destruct rows as [| r' rows]; [exact Hr |].
  change (String.concat newline (r :: r' :: rows))
    with (r ++ newline ++ String.concat newline (r' :: rows))%string.
  rewrite !count_newlines_app, IH, Hr. reflexivity.
Qed.

Lemma csvRow_single_line (show : Q -> string) (face : FaceDetectionResult) :
  (forall q, count_newlines (show q) = 0%nat) ->
  count_newlines (id face) = 0%nat ->
  count_newlines (csvRow show face) = 0%nat.
Proof.
  intros Hs Hi. unfold csvRow.
  rewrite !count_newlines_app, !Hs, Hi.
  destruct (gender face); reflexivity.
Qed.

(** The exported CSV holds the header line and one line per face, as long
    as ids and rendered numbers hold no line break; nothing is exported
    for an empty list of faces. *)
Theorem csv_has_one_line_per_face (show : Q -> string)
    (detectedFaces : list FaceDetectionResult) :
  (forall q, count_newlines (show q) = 0%nat) ->
  Forall (fun f => count_newlines (id f) = 0%nat) detectedFaces ->
  detectedFaces <> [] ->
  handleExportData show [] = None /\
  exists csv,
    handleExportData show detectedFaces = Some csv /\
    count_newlines csv = List.length detectedFaces.
Proof.
  intros Hs Hids Hne. split; [reflexivity |].
  destruct detectedFaces as [| f rest]; [congruence |].
  unfold handleExportData. cbn [List.length Nat.ltb Nat.leb].
  eexists. split; [reflexivity |].
  rewrite !count_newlines_app, count_newlines_concat.
  - rewrite length_map. reflexivity.
  - apply Forall_forall. intros r Hr. apply in_map_iff in Hr.
    destruct Hr as (g & <- & Hg). rewrite Forall_forall in Hids.
    apply csvRow_single_line; auto.
Qed.

Lemma csv_has_one_line_per_face_witness :
  handleExportData show_zero [] = None /\
  exists csv,
    handleExportData show_zero [face_in_photo; Samples.faceA] = Some csv /\
    count_newlines csv = 2%nat.
Proof.
  apply (csv_has_one_line_per_face show_zero [face_in_photo; Samples.faceA]).
  - intros q. reflexivity.
  - repeat constructor.
  - discriminate.
Defined.

End ComponentFacts.

(* ================================================================= *)
(** ** [MemStorage]: round trips, listing order, users *)

Module StorageFacts.
Import JS Server Users Measures JSFacts Routes Samples MoreSamples.

Lemma Map_get_set_other {V} (k k' : string) (v : V) (m : Map V) :
  k' <> k -> Map_get k' (Map_set k v m) = Map_get k' m.
Proof.
  intros Hne. induction m as [| [k0 v0] m IH]; simpl.
  - destruct (String.eqb_spec k k'); [congruence | reflexivity].
  - destruct (String.eqb_spec k0 k) as [-> | Hk]; simpl.
    + destruct (String.eqb_spec k k'); [congruence | reflexivity].
    + now rewrite IH.
Qed.

Lemma Map_set_fresh {V} (k : string) (v : V) (m : Map V) :
  Map_get k m = None -> Map_set k v m = m ++ [(k, v)].
Proof.
  induction m as [| [k0 v0] m IH]; simpl; [reflexivity |].
  destruct (String.eqb k0 k); [discriminate |].
  intros H. now rewrite IH.
Qed.

Lemma Map_get_In_values {V} (k : string) (v : V) (m : Map V) :
  Map_get k m = Some v -> In v (Map_values m).
Proof.
  induction m as [| [k0 v0] m IH]; simpl; [discriminate |].
  destruct (String.eqb k0 k).
  - intros [= ->]. now left.
  - intros H. right. now apply IH.
Qed.

(** A record that was created can be read back under its id, and the
    records stored under the other ids are read as before; the users are
    not touched; an empty processing time is stored as absent. *)
Theorem created_record_can_be_read_back (data : InsertFaceAnalysis) (m : MemStorage) :
  exists a m',
    Mem_createFaceAnalysis data m = (inr a, m') /\
    Mem_getFaceAnalysis (id a) m' = (inr (Some a), m') /\
    (forall k, k <> id a ->
               Mem_getFaceAnalysis k m' = (inr (Map_get k (analyses m)), m')) /\
    processingTime a <> Some EmptyString /\
    analysisTimestamp a = Date_now m (date_calls m) /\
    users m' = users m.
Proof.
  unfold Mem_createFaceAnalysis, bind, fresh_uuid, new_Date, analyses_set, ret.
  simpl. do 2 eexists. split; [reflexivity |].
  unfold Mem_getFaceAnalysis, read. simpl.
  split; [now rewrite Map_get_set_same |].
  split; [intros k Hk; now rewrite Map_get_set_other |].
  split; [| split; reflexivity].
  unfold or_null. destruct (ins_processingTime data) as [[| c s] |]; simpl;
    discriminate.
Qed.

Lemma Mem_create_then_get (data : InsertFaceAnalysis) (m : MemStorage) :
  exists a m',
    Mem_createFaceAnalysis data m = (inr a, m') /\
    Mem_getFaceAnalysis (id a) m' = (inr (Some a), m').
Proof.
  destruct (Mem_createFaceAnalysis_returns data m) as (a & m' & C & G & _).
  exists a, m'. split; [exact C |].
  unfold Mem_getFaceAnalysis, read. now rewrite G.
Qed.

(** After an accepted [POST /api/analyses], [GET /api/analyses/:id] with
    the id of the returned record answers with that record. *)
Theorem post_then_get_by_id
    (parse : Json -> Error + InsertFaceAnalysis) (req_body : Json)
    (data : InsertFaceAnalysis) (m : MemStorage) :
  parse req_body = inr data ->
  exists a m',
    post_api_analyses (storage := memStorage) parse req_body m
    = (inr (mkResponse 200 (BodyAnalysis a)), m') /\
    get_api_analyses_id (storage := memStorage) (id a) m'
    = (inr (mkResponse 200 (BodyAnalysis a)), m').
Proof.
  intros H.
  destruct (Mem_create_then_get data m) as (a & m' & C & G).
  exists a, m'. split.
  - now apply (post_valid (storage := memStorage)) with data.
  - rewrite get_id_outcomes.
    change (getFaceAnalysis (id a) m') with (Mem_getFaceAnalysis (id a) m').
    now rewrite G.
Qed.

Lemma post_then_get_by_id_witness :
  exists a m',
    post_api_analyses (storage := memStorage) toy_parse
      (JObject [("imageFileName"%string, JString "a.png")]) empty_store
    = (inr (mkResponse 200 (BodyAnalysis a)), m') /\
    get_api_analyses_id (storage := memStorage) (id a) m'
    = (inr (mkResponse 200 (BodyAnalysis a)), m').
Proof.
  apply (post_then_get_by_id toy_parse _ insert_a empty_store). reflexivity.
Defined.

Lemma sort_insert_perm {A} (cmp : A -> A -> Z) (a : A) (l : list A) :
  Permutation (sort_insert cmp a l) (a :: l).
Proof.
  induction l as [| e l IH]; simpl; [reflexivity |].
  destruct (cmp a e <=? 0)%Z; [reflexivity |].
  rewrite IH. apply perm_swap.
Qed.

Lemma sort_perm {A} (cmp : A -> A -> Z) (l : list A) : Permutation (sort cmp l) l.
Proof.
  induction l as [| a l IH]; simpl; [reflexivity |].
  rewrite sort_insert_perm. now constructor.
Qed.

Lemma sort_insert_sorted (a : FaceAnalysis) (l : list FaceAnalysis) :
  StronglySorted newer_first l ->
  StronglySorted newer_first (sort_insert by_time_desc a l).
Proof.
  induction 1 as [| e l Hs IH Hall]; simpl.
  - repeat constructor.
  - unfold by_time_desc at 1.
    destruct (Z.leb_spec (analysisTimestamp e - analysisTimestamp a) 0)
      as [Le | Gt].
    + constructor; [now constructor |].
      constructor; [unfold newer_first; lia |].
      eapply Forall_impl; [| exact Hall]. unfold newer_first.
      intros x Hx. lia.
    + constructor; [exact IH |].
      apply (Permutation_Forall (Permutation_sym (sort_insert_perm _ a l))).
      constructor; [unfold newer_first; lia | exact Hall].
Qed.

Lemma sort_sorted (l : list FaceAnalysis) :
  StronglySorted newer_first (sort by_time_desc l).
Proof.
  induction l as [| a l IH]; simpl; [constructor | now apply sort_insert_sorted].
Qed.

Lemma sorted_app_order (l1 l2 : list FaceAnalysis) :
  StronglySorted newer_first (l1 ++ l2) ->
  forall a b, In a l1 -> In b l2 -> newer_first a b.
Proof.
  induction l1 as [| x l1 IH]; simpl; [tauto |].
  intros Hs a b [<- | Ha] Hb.
  - apply StronglySorted_inv in Hs. destruct Hs as [_ Hall].
    rewrite Forall_forall in Hall. apply Hall, in_or_app. now right.
  - apply StronglySorted_inv in Hs. destruct Hs as [Hs _]. now apply IH.
Qed.

Lemma sorted_prefix (l1 l2 : list FaceAnalysis) :
  StronglySorted newer_first (l1 ++ l2) -> StronglySorted newer_first l1.
Proof.
  induction l1 as [| x l IH]; intros Hs; [constructor |].
  simpl in Hs. apply StronglySorted_inv in Hs. destruct Hs as [Hs Hall].
  constructor; [now apply IH |].
  rewrite Forall_forall in *. intros y Hy. apply Hall, in_or_app. now left.
Qed.

(** [getFaceAnalyses] does not change the store and, whatever the limit,
    answers with the newest records, newest first: the answer is sorted by
    time stamp, later first; every record it leaves out is stored and is no
    later than any record it returns. *)
Theorem listing_is_newest_first (limit : option Int) (m : MemStorage) :
  exists res rest,
    Mem_getFaceAnalyses limit m = (inr res, m) /\
    Permutation (Map_values (analyses m)) (res ++ rest) /\
    StronglySorted newer_first res /\
    (forall a b, In a res -> In b rest -> newer_first a b).
Proof.
  unfold Mem_getFaceAnalyses, bind, read, ret. simpl.
  change (sort _ (Map_values (analyses m)))
    with (sort by_time_desc (Map_values (analyses m))).
  set (sorted := sort by_time_desc (Map_values (analyses m))).
  unfold slice0. set (k := Z.to_nat _).
  exists (firstn k sorted), (skipn k sorted).
  pose proof (sort_sorted (Map_values (analyses m))) as Hs. fold sorted in Hs.
  split; [reflexivity |]. split; [| split].
  - rewrite firstn_skipn. symmetry. apply sort_perm.
  - rewrite <- (firstn_skipn k sorted) in Hs. now apply sorted_prefix in Hs.
  - rewrite <- (firstn_skipn k sorted) in Hs. now apply sorted_app_order.
Qed.

Lemma sort_newest_last (a : FaceAnalysis) (l : list FaceAnalysis) :
  (forall b, In b l -> (analysisTimestamp b < analysisTimestamp a)%Z) ->
  sort by_time_desc (l ++ [a]) = a :: sort by_time_desc l.
Proof.
  induction l as [| x l IH]; intros H; [reflexivity |].
  change (sort by_time_desc ((x :: l) ++ [a]))
    with (sort_insert by_time_desc x (sort by_time_desc (l ++ [a]))).
  change (sort by_time_desc (x :: l))
    with (sort_insert by_time_desc x (sort by_time_desc l)).
  rewrite IH by (intros b Hb; apply H; now right).
  cbn [sort_insert]. unfold by_time_desc at 1.
  specialize (H x (or_introl eq_refl)).
  destruct (Z.leb_spec (analysisTimestamp a - analysisTimestamp x) 0)
    as [Le | Gt]; [lia | reflexivity].
Qed.

Lemma sort_length {A} (cmp : A -> A -> Z) (l : list A) :
  List.length (sort cmp l) = List.length l.
Proof. apply Permutation_length, sort_perm. Qed.

Lemma slice0_length {A} (l : list A) (n : nat) :
  List.length (slice0 l (Num (Z.of_nat n))) = Nat.min n (List.length l).
Proof.
  unfold slice0. rewrite length_firstn.
  destruct (Z.ltb_spec (Z.of_nat n) 0); lia.
Qed.

(** How many records a listing returns: at most 10 without a limit, at
    most [n] for a limit [n]; a negative limit [-k] leaves out the [k]
    oldest records. *)
Theorem listing_length (m : MemStorage) (n k : nat) :
  (exists res, Mem_getFaceAnalyses None m = (inr res, m) /\
               List.length res = Nat.min 10 (List.length (analyses m))) /\
  (exists res, Mem_getFaceAnalyses (Some (Num (Z.of_nat n))) m = (inr res, m) /\
               List.length res = Nat.min n (List.length (analyses m))) /\
  (exists res, Mem_getFaceAnalyses (Some (Num (- Z.of_nat (S k)))) m = (inr res, m) /\
               List.length res = (List.length (analyses m) - S k)%nat).
Proof.
  assert (L : forall cmp, List.length (sort cmp (Map_values (analyses m)))
                          = List.length (analyses m)).
  { intros cmp. rewrite (Permutation_length (sort_perm cmp _)).
    unfold Map_values. apply length_map. }
  unfold Mem_getFaceAnalyses, bind, read, ret. cbv beta iota.
  repeat split; eexists; (split; [reflexivity |]);
    unfold slice0; rewrite length_firstn, L; cbn [nullish].
  - change (10 <? 0)%Z with false. cbv iota. lia.
  - destruct (Z.ltb_spec (Z.of_nat n) 0); lia.
  - destruct (Z.ltb_spec (- Z.of_nat (S k)) 0); lia.
Qed.

Lemma Mem_listing (limit : option Int) (m : MemStorage) :
  Mem_getFaceAnalyses limit m
  = (inr (slice0 (sort by_time_desc (Map_values (analyses m)))
                 (nullish limit (Num 10))), m).
Proof. reflexivity. Qed.

Lemma slice0_prefix {A} (l : list A) (e : Int) :
  exists k, slice0 l e = firstn k l.
Proof. unfold slice0. eauto. Qed.

Lemma listing_sorted_subset (limit : option Int) (m : MemStorage) :
  let res := slice0 (sort by_time_desc (Map_values (analyses m)))
                    (nullish limit (Num 10)) in
  StronglySorted newer_first res /\ incl res (Map_values (analyses m)).
Proof.
  cbv zeta. set (sorted := sort by_time_desc (Map_values (analyses m))).
  destruct (slice0_prefix sorted (nullish limit (Num 10))) as [k ->].
  pose proof (sort_sorted (Map_values (analyses m))) as Hs. fold sorted in Hs.
  rewrite <- (firstn_skipn k sorted) in Hs. split.
  - now apply sorted_prefix in Hs.
  - intros a Ha.
    apply (Permutation_in a (sort_perm by_time_desc (Map_values (analyses m)))).
    fold sorted. rewrite <- (firstn_skipn k sorted). apply in_or_app. now left.
Qed.

(** Without a [limit], or with an empty one, [GET /api/analyses] on the
    in-memory backend answers 200 with the newest records, newest first,
    at most 10 of them, and leaves the store as it was.  With any backend
    the handler ends with a response. *)
Theorem list_route_default (m : MemStorage) :
  (exists res,
      get_api_analyses (storage := memStorage) None m
      = (inr (mkResponse 200 (BodyAnalyses res)), m) /\
      get_api_analyses (storage := memStorage) (Some EmptyString) m
      = (inr (mkResponse 200 (BodyAnalyses res)), m) /\
      List.length res = Nat.min 10 (List.length (analyses m)) /\
      StronglySorted newer_first res /\
      incl res (Map_values (analyses m))) /\
  (forall (S : Type) (storage : IStorage S) (query_limit : option string) (s : S),
      exists resp s', get_api_analyses query_limit s = (inr resp, s')).
Proof.
  split.
  - exists (slice0 (sort by_time_desc (Map_values (analyses m))) (Num 10)).
    split; [reflexivity |]. split; [reflexivity |]. split.
    + rewrite (slice0_length _ 10), sort_length. unfold Map_values.
      now rewrite length_map.
    + apply (listing_sorted_subset None m).
  - intros S storage q s. unfold get_api_analyses, try_catch, bind, ret.
    match goal with
    | |- context [getFaceAnalyses ?l s] =>
        destruct (getFaceAnalyses l s) as [[e | found] s']
    end; do 2 eexists; reflexivity.
Qed.

(** With a [limit] that is not empty and parses to a number [n] that is
    not negative, the in-memory backend answers with the newest records,
    newest first, [n] of them or all when fewer are stored. *)
Theorem list_route_with_limit (limit : string) (n : nat) (m : MemStorage) :
  limit <> EmptyString ->
  parseInt limit = Num (Z.of_nat n) ->
  exists res,
    get_api_analyses (storage := memStorage) (Some limit) m
    = (inr (mkResponse 200 (BodyAnalyses res)), m) /\
    List.length res = Nat.min n (List.length (analyses m)) /\
    StronglySorted newer_first res /\
    incl res (Map_values (analyses m)).
Proof.
  intros Hne Hn.
  exists (slice0 (sort by_time_desc (Map_values (analyses m))) (Num (Z.of_nat n))).
  split; [| split; [| apply (listing_sorted_subset (Some (Num (Z.of_nat n))) m)]];
    [| rewrite slice0_length, sort_length; unfold Map_values;
       now rewrite length_map].
  unfold get_api_analyses, try_catch, bind.
  destruct limit as [| c l]; [congruence |]. cbn [truthy]. rewrite Hn.
  reflexivity.
Qed.

Lemma list_route_with_limit_witness :
  exists res,
    get_api_analyses (storage := memStorage) (Some "1"%string) one_store
    = (inr (mkResponse 200 (BodyAnalyses res)), one_store) /\
    List.length res = Nat.min 1 (List.length (analyses one_store)) /\
    StronglySorted newer_first res /\
    incl res (Map_values (analyses one_store)).
Proof.
  apply (list_route_with_limit "1" 1 one_store).
  - discriminate.
  - reflexivity.
Defined.

Lemma slice0_default_cons {A} (a : A) (t : list A) :
  slice0 (a :: t) (Num 10) = a :: firstn 9 t.
Proof.
  unfold slice0. change (10 <? 0)%Z with false. cbv iota. cbn [List.length].
  destruct (Nat.le_gt_cases 9 (List.length t)) as [Big | Small].
  - replace (Z.to_nat (Z.min 10 (Z.of_nat (S (List.length t))))) with 10%nat by lia.
    reflexivity.
  - replace (Z.to_nat (Z.min 10 (Z.of_nat (S (List.length t)))))
      with (S (List.length t)) by lia.
    change (firstn (S (List.length t)) (a :: t))
      with (a :: firstn (List.length t) t).
    rewrite firstn_all. rewrite (firstn_all2 (n := 9)) by lia. reflexivity.
Qed.

(** A record created under an id that is not in use, at a time later than
    the time stamps of all stored records, comes first in the next
    listing. *)
Theorem newest_record_is_listed_first (data : InsertFaceAnalysis) (m : MemStorage) :
  Map_get (randomUUID m (uuid_calls m)) (analyses m) = None ->
  (forall b, In b (Map_values (analyses m)) ->
             (analysisTimestamp b < Date_now m (date_calls m))%Z) ->
  exists a m' rest,
    Mem_createFaceAnalysis data m = (inr a, m') /\
    Mem_getFaceAnalyses None m' = (inr (a :: rest), m').
Proof.
  intros Hfresh Hlater.
  unfold Mem_createFaceAnalysis, bind, fresh_uuid, new_Date, analyses_set, ret.
  cbv beta iota. cbn [randomUUID uuid_calls Date_now date_calls users analyses].
  set (a := mkAnalysis _ _ _ _ _ _).
  exists a. eexists.
  exists (firstn 9 (sort by_time_desc (Map_values (analyses m)))).
  split; [reflexivity |].
  rewrite Mem_listing. cbn [analyses nullish].
  rewrite (Map_set_fresh _ a _ Hfresh). unfold Map_values. rewrite map_app.
  cbn [map snd]. fold (Map_values (analyses m)).
  rewrite (sort_newest_last a) by exact Hlater.
  now rewrite slice0_default_cons.
Qed.

Lemma newest_record_is_listed_first_witness :
  exists a m' rest,
    Mem_createFaceAnalysis insert_b one_store = (inr a, m') /\
    Mem_getFaceAnalyses None m' = (inr (a :: rest), m').
Proof.
  apply (newest_record_is_listed_first insert_b one_store).
  - reflexivity.
  - intros b [<- | []]. reflexivity.
Defined.

Lemma find_some_of_In {A} (p : A -> bool) (x : A) (l : list A) :
  In x l -> p x = true -> exists v, find p l = Some v /\ p v = true.
Proof.
  induction l as [| y l IH]; simpl; [tauto |].
  intros [-> | H] Hp.
  - rewrite Hp. eauto.
  - destruct (p y) eqn:Py; eauto.
Qed.

Lemma find_app_first {A} (p : A -> bool) (v : A) (l l' : list A) :
  find p l = Some v -> find p (l ++ l') = Some v.
Proof.
  induction l as [| y l IH]; simpl; [discriminate |].
  destruct (p y); auto.
Qed.

(** A user that was created is found under the id it was given, and a
    lookup by its user name finds a user of that name; the analyses are
    not touched. *)
Theorem created_user_can_be_found (insertUser : InsertUser) (m : MemStorage) :
  exists u m',
    Mem_createUser insertUser m = (inr u, m') /\
    username u = ins_username insertUser /\
    password u = ins_password insertUser /\
    Mem_getUser (user_id u) m' = (inr (Some u), m') /\
    (exists v, Mem_getUserByUsername (ins_username insertUser) m'
               = (inr (Some v), m') /\
               username v = ins_username insertUser) /\
    analyses m' = analyses m.
Proof.
  unfold Mem_createUser, bind, fresh_uuid, users_set, ret. cbv beta iota.
  cbn [randomUUID uuid_calls users analyses Date_now date_calls].
  set (u := mkUser _ _ _). eexists u, _.
  split; [reflexivity |]. split; [reflexivity |]. split; [reflexivity |].
  unfold Mem_getUser, Mem_getUserByUsername, read. cbn [users analyses].
  pose proof (Map_get_set_same (user_id u) u (users m)) as G.
  split; [cbn [user_id u] in *; now rewrite G |].
  split; [| reflexivity].
  apply Map_get_In_values in G.
  destruct (find_some_of_In
              (fun user => String.eqb (username user) (ins_username insertUser))
              u _ G) as (v & Fv & Pv).
  - apply String.eqb_refl.
  - exists v. cbn [user_id u] in Fv. rewrite Fv. split; [reflexivity |].
    now apply String.eqb_eq.
Qed.

(** User names are not kept unique: creating a user under a name that is
    taken succeeds, under a fresh id, and the lookup by name goes on
    answering the user who had the name first. *)
Theorem taken_username_is_accepted (insertUser : InsertUser) (m : MemStorage)
    (first : User) :
  Map_get (randomUUID m (uuid_calls m)) (users m) = None ->
  Mem_getUserByUsername (ins_username insertUser) m = (inr (Some first), m) ->
  exists u m',
    Mem_createUser insertUser m = (inr u, m') /\
    username u = username first /\
    Mem_getUser (user_id u) m' = (inr (Some u), m') /\
    Mem_getUserByUsername (ins_username insertUser) m' = (inr (Some first), m').
Proof.
  intros Hfresh Hfirst.
  unfold Mem_getUserByUsername, read in Hfirst. injection Hfirst as Hfind.
  unfold Mem_createUser, bind, fresh_uuid, users_set, ret. cbv beta iota.
  cbn [randomUUID uuid_calls users analyses Date_now date_calls].
  set (u := mkUser _ _ _). eexists u, _.
  split; [reflexivity |].
  split.
  - apply find_some in Hfind. destruct Hfind as [_ E].
    apply String.eqb_eq in E. now rewrite E.
  - unfold Mem_getUser, Mem_getUserByUsername, read. cbn [users].
    split.
    + pose proof (Map_get_set_same (user_id u) u (users m)) as G.
      cbn [user_id u] in *. now rewrite G.
    + rewrite (Map_set_fresh _ u _ Hfresh). unfold Map_values.
      rewrite map_app. fold (Map_values (users m)).
      now rewrite (find_app_first _ _ _ _ Hfind).
Qed.

Lemma taken_username_is_accepted_witness :
  exists first m1 u m2,
    Mem_createUser alice empty_store = (inr first, m1) /\
    Mem_createUser alice m1 = (inr u, m2) /\
    username u = username first /\
    Mem_getUser (user_id u) m2 = (inr (Some u), m2) /\
    Mem_getUserByUsername "alice" m2 = (inr (Some first), m2).
Proof.
  destruct (Mem_createUser alice empty_store) as [r m1] eqn:E1.
  vm_compute in E1. injection E1 as <- <-.
  eexists _, _.
  destruct (taken_username_is_accepted alice
              (mkMem [("uuid-0"%string, mkUser "uuid-0" "alice" "secret")] []
                     (randomUUID empty_store) 1 (Date_now empty_store) 0)
              (mkUser "uuid-0" "alice" "secret") eq_refl eq_refl)
    as (u & m2 & C & Hn & Hg & Hf).
  exists u, m2. split; [reflexivity |]. split; [exact C |].
  split; [exact Hn |]. split; [exact Hg | exact Hf].
Defined.

End StorageFacts.
